(** * The rate limiter of the manbo voice service

    A shallow embedding of [src/services/manbo-service.ts]: the class
    [ManboRateLimiter] (a fixed-window request counter per key) and the
    exported wrappers that derive the key from a group id; and of the
    message handler that calls them ([handleMessage] and [sendReply]).

    Numbers.  Limits, counters, group ids and timestamps are JavaScript
    numbers that hold integers; they are modelled as [Z].  The arithmetic the
    code performs on them ([now - entry.windowStart], [entry.count++],
    [limit - entry.count]) is exact on integers below 2^53, which is the
    range of millisecond timestamps and of per-minute request counts.

    Time.  [Date.now()] is the only input the methods read besides their
    arguments; the value it returns during a call is the argument [now].

    State.  The private field [requests] is a [Map<string, RateLimitEntry>];
    it is the state threaded through the methods, a [gmap string
    RateLimitEntry].  An entry object is reachable only through the map, so
    the in-place update [entry.count++] is the replacement of the value
    stored under the key. *)

From Stdlib Require Import ZArith Lia.
From stdpp Require Import base option gmap strings list fin_maps pretty.

Local Open Scope Z_scope.

(** ** Data model *)

Record RateLimitEntry : Type := mkEntry {
  count : Z;
  windowStart : Z
}.

(** The field [requests] of the class. *)
Abbreviation Requests := (gmap string RateLimitEntry).

(** The field [windowSize] of the class: it is initialised to 60000 and never
    assigned again. *)
Definition windowSize : Z := 60000.

(** ** Methods as state transformers over [requests] *)

Definition Limiter (A : Type) : Type := Requests -> A * Requests.

#[global] Instance Limiter_ret : MRet Limiter :=
  fun A (a : A) (m : Requests) => (a, m).

#[global] Instance Limiter_bind : MBind Limiter :=
  fun A B (f : A -> Limiter B) (c : Limiter A) (m : Requests) =>
    let '(a, m') := c m in f a m'.

(** [this.requests.get(key)] *)
Definition requests_get (key : string) : Limiter (option RateLimitEntry) :=
  fun m => (m !! key, m).

(** [this.requests.set(key, e)] *)
Definition requests_set (key : string) (e : RateLimitEntry) : Limiter unit :=
  fun m => (tt, <[key := e]> m).

(** [this.requests.delete(key)] *)
Definition requests_delete (key : string) : Limiter unit :=
  fun m => (tt, delete key m).

(** [this.requests.clear()] *)
Definition requests_clear : Limiter unit :=
  fun _ => (tt, ∅).

(** [ManboRateLimiter.check]. *)
Definition check (key : string) (limit : Z) (now : Z) : Limiter bool :=
  if decide (limit = -1) then mret true
  else if decide (limit = 0) then mret false
  else
    entry ← requests_get key;
    match entry with
    | None =>
        requests_set key {| count := 1; windowStart := now |};; mret true
    | Some e =>
        if now - windowStart e >=? windowSize then
          requests_set key {| count := 1; windowStart := now |};; mret true
        else if count e >=? limit then mret false
        else
          requests_set key {| count := count e + 1;
                              windowStart := windowStart e |};;
          mret true
    end.

(** [ManboRateLimiter.getRemaining]. *)
Definition getRemaining (key : string) (limit : Z) (now : Z) : Limiter Z :=
  if decide (limit = -1) then mret (-1)
  else if decide (limit = 0) then mret 0
  else
    entry ← requests_get key;
    match entry with
    | None => mret limit
    | Some e =>
        if now - windowStart e >=? windowSize then mret limit
        else mret (Z.max 0 (limit - count e))
    end.

(** [ManboRateLimiter.reset]. *)
Definition reset (key : string) : Limiter unit := requests_delete key.

(** [ManboRateLimiter.clear]. *)
Definition clear : Limiter unit := requests_clear.

(** ** Sequences of method calls

    A client of the limiter issues method calls one after the other, each at
    the time the clock shows then.  [perform] dispatches one call and [run]
    threads the state through a list of them, collecting what they return.
    The limiter is constructed with an empty map ([new ManboRateLimiter()])
    and the map is private, so the states it can be in are the
    [(run cs ∅).2]. *)

Inductive call : Type :=
  | CallCheck (key : string) (limit : Z)
  | CallGetRemaining (key : string) (limit : Z)
  | CallReset (key : string)
  | CallClear.

Inductive answer : Type :=
  | ABool (b : bool)
  | ANum (n : Z)
  | AVoid.

Definition perform (c : call) (now : Z) : Limiter answer :=
  match c with
  | CallCheck key limit => b ← check key limit now; mret (ABool b)
  | CallGetRemaining key limit => n ← getRemaining key limit now; mret (ANum n)
  | CallReset key => reset key;; mret AVoid
  | CallClear => clear;; mret AVoid
  end.

Fixpoint run (cs : list (call * Z)) : Limiter (list answer) :=
  match cs with
  | [] => mret []
  | (c, now) :: cs' =>
      a ← perform c now; rest ← run cs'; mret (a :: rest)
  end.

(** Recognises the calls of [getRemaining]. *)
Definition is_getRemaining (c : call) : bool :=
  match c with CallGetRemaining _ _ => true | _ => false end.

(** ** The exported wrappers *)

(** The part of [pluginState.config] the service reads.  Both fields may be
    absent ([?.] and [??] in the source). *)
Record PluginConfig : Type := mkConfig {
  manboApiUrl : option string;
  manboRateLimit : option Z
}.

(** The value [generateManboVoice] resolves to. *)
Record VoiceResult : Type := mkVoice {
  success : bool;
  audioUrl : option string;
  error : option string
}.

(** JavaScript truthiness of an optional integer argument: [undefined] and
    [0] are falsy. *)
Definition truthy (groupId : option Z) : bool :=
  match groupId with
  | None => false
  | Some g => negb (g =? 0)
  end.

(** The expression [groupId ? `group:${groupId}` : 'global'], which each of
    the three wrappers evaluates.  [pretty] prints the integer in decimal, as
    the template literal does for integers of magnitude below 10^21 (group
    ids are far below that). *)
Definition rateLimitKey (groupId : option Z) : string :=
  match groupId with
  | Some g => if truthy groupId then "group:" +:+ pretty g else "global"
  | None => "global"
  end.

Section Service.

(** [String.prototype.trim]. *)
Variable trim : string -> string.

(** The [try] block of [generateManboVoice]: the HTTP request to the voice
    API with the URL and the text, and the decoding of its answer.  It has
    no access to the limiter. *)
Variable callManboApi : string -> string -> VoiceResult.

(** [generateManboVoice], up to what the voice API answers.  The call of
    [check] comes before the first [await], so it completes within the
    invocation. *)
Definition generateManboVoice (config : PluginConfig) (text : string)
    (groupId : option Z) (now : Z) : Limiter VoiceResult :=
  let apiUrl := trim <$> manboApiUrl config in
  let rateLimit := default (-1) (manboRateLimit config) in
  match apiUrl with
  | None | Some EmptyString =>
      mret {| success := false; audioUrl := None;
              error := Some "曼波API地址未配置" |}
  | Some url =>
      let rateLimitKey := rateLimitKey groupId in
      allowed ← check rateLimitKey rateLimit now;
      if negb allowed then
        mret {| success := false; audioUrl := None;
                error := Some "请求过于频繁，请稍后再试" |}
      else mret (callManboApi url text)
  end.

End Service.

Definition getRateLimitRemaining (config : PluginConfig) (groupId : option Z)
    (now : Z) : Limiter Z :=
  let rateLimit := default (-1) (manboRateLimit config) in
  getRemaining (rateLimitKey groupId) rateLimit now.

Definition resetRateLimit (groupId : option Z) : Limiter unit :=
  reset (rateLimitKey groupId).

Definition clearAllRateLimits : Limiter unit := clear.

(** ** The answer of the voice API

    The [try] block of [generateManboVoice] builds the request URL, awaits
    [fetch] and [response.json()], and turns what comes back into the value
    the function resolves to.  What the network does is an input of the
    model, a [FetchOutcome]; what the code does with it is [manboApiResult]. *)

(** The interface [ManboApiResponse]. *)
Record ManboApiResponse : Type := mkResponse {
  code : Z;
  msg : option string;
  url : option string;
  api_source : option string
}.

(** JavaScript truthiness of an optional string: [undefined] and the empty
    string are falsy. *)
Definition truthyString (s : option string) : bool :=
  match s with
  | Some (String _ _) => true
  | _ => false
  end.

(** [s || fallback] on optional strings. *)
Definition orElse (s : option string) (fallback : string) : string :=
  match s with
  | Some (String _ _ as v) => v
  | _ => fallback
  end.

(** A value caught by [catch (error)]: an [Error] object with its message,
    or any other value with what [String(error)] gives for it. *)
Inductive Thrown : Type :=
  | ThrownError (message : string)
  | ThrownValue (asString : string).

(** What the request comes to: something in the [try] block throws
    ([new URL(apiUrl)], [fetch], [response.json()] or the reading of a body
    that is no object), or the response arrives with [response.ok] false, or
    its body is decoded. *)
Inductive FetchOutcome : Type :=
  | FetchThrew (e : Thrown)
  | FetchNotOk (status : Z) (statusText : string)
  | FetchJson (result : ManboApiResponse).

(** [error instanceof Error ? error.message : String(error)] *)
Definition thrownMessage (e : Thrown) : string :=
  match e with
  | ThrownError message => message
  | ThrownValue asString => asString
  end.

(** The [catch] block of [generateManboVoice]. *)
Definition catchApiError (e : Thrown) : VoiceResult :=
  {| success := false; audioUrl := None;
     error := Some ("API调用失败: " +:+ thrownMessage e) |}.

(** The [try] block of [generateManboVoice] after the request. *)
Definition manboApiResult (o : FetchOutcome) : VoiceResult :=
  match o with
  | FetchThrew e => catchApiError e
  | FetchNotOk status statusText =>
      catchApiError
        (ThrownError ("API请求失败: " +:+ pretty status +:+ " " +:+ statusText))
  | FetchJson result =>
      if (code result =? 200) && truthyString (url result) then
        {| success := true; audioUrl := url result; error := None |}
      else
        {| success := false; audioUrl := None;
           error := Some (orElse (msg result) "生成语音失败") |}
  end.

(** ** The message handler ([handleMessage] and [sendReply])

    Strings are the UTF-8 bytes of the JavaScript strings.  The command
    prefix has three characters, which are three UTF-16 code units in the
    source and [String.length commandPrefix] = 7 bytes here; so
    [rawMessage.slice(3)], which the source evaluates only where
    [rawMessage.startsWith] has found the prefix, removes that many bytes. *)

(** The fields of the message event the handler reads. *)
Record OB11Message : Type := mkMessage {
  raw_message : option string;
  message_type : string;
  group_id : option Z;
  user_id : option Z
}.

(** What a reply carries: a text, or one [record] segment with the file. *)
Inductive MessageContent : Type :=
  | TextMessage (text : string)
  | RecordMessage (file : string).

Module SendMsg.

(** The parameters of the [send_msg] action ([OB11PostSendMsg]). *)
Record params : Type := mkParams {
  message : MessageContent;
  message_type : string;
  group_id : option string;
  user_id : option string
}.

End SendMsg.

(** The object [sendReply] passes to [send_msg]. *)
Definition sendReplyParams (event : OB11Message) (message : MessageContent)
    : SendMsg.params :=
  {| SendMsg.message := message;
     SendMsg.message_type := message_type event;
     SendMsg.group_id :=
       match group_id event with
       | Some g =>
           if String.eqb (message_type event) "group" && truthy (group_id event)
           then Some (pretty g) else None
       | None => None
       end;
     SendMsg.user_id :=
       match user_id event with
       | Some u =>
           if String.eqb (message_type event) "private"
              && truthy (user_id event)
           then Some (pretty u) else None
       | None => None
       end |}.

Definition commandPrefix : string := "/曼波".

(** [s.slice(n)] for [n] within the string. *)
Fixpoint slice (n : nat) (s : string) : string :=
  match n, s with
  | O, _ => s
  | S n', String _ s' => slice n' s'
  | S _, EmptyString => EmptyString
  end.

(** What one invocation of [handleMessage] does besides its use of the
    limiter: the reply it sends, if any, and whether it calls
    [pluginState.incrementProcessed]. *)
Record HandlerOutcome : Type := mkOutcome {
  reply : option MessageContent;
  processed : bool
}.

Section Handler.

(** [String.prototype.trim]. *)
Variable trim : string -> string.

(** The network: what the request for a URL and a text comes to. *)
Variable fetchManbo : string -> string -> FetchOutcome.

(** [pluginState.isGroupEnabled], from [core/state]. *)
Variable isGroupEnabled : string -> bool.

(** [pluginState.config]. *)
Variable config : PluginConfig.

(** [generateManboVoice] with its [try] block. *)
Definition generateVoice (text : string) (groupId : option Z) (now : Z)
    : Limiter VoiceResult :=
  generateManboVoice trim
    (fun apiUrl text => manboApiResult (fetchManbo apiUrl text))
    config text groupId now.

(** [handleMessage].  The file of the voice reply is [result.audioUrl],
    which the guard has found non-empty. *)
Definition handleMessage (event : OB11Message) (now : Z)
    : Limiter HandlerOutcome :=
  let rawMessage := orElse (raw_message event) "" in
  let messageType := message_type event in
  let groupId := group_id event in
  let disabled :=
    match groupId with
    | Some g =>
        String.eqb messageType "group" && truthy groupId
        && negb (isGroupEnabled (pretty g))
    | None => false
    end in
  if disabled then mret {| reply := None; processed := false |}
  else if String.prefix commandPrefix rawMessage then
    let text := trim (slice (String.length commandPrefix) rawMessage) in
    if decide (text = "") then
      mret {| reply := Some (TextMessage "请输入要说的内容，例如：/曼波 你好");
              processed := false |}
    else
      result ← generateVoice text groupId now;
      if success result && truthyString (audioUrl result) then
        mret {| reply := Some (RecordMessage (orElse (audioUrl result) ""));
                processed := true |}
      else
        mret {| reply := Some (TextMessage
                  ("生成失败: " +:+ orElse (error result) "未知错误"));
                processed := false |}
  else mret {| reply := None; processed := false |}.

(** The handler invoked for each message of a list, in the order of
    arrival.  [check] runs before the first [await] of an invocation, so the
    limiter sees the invocations in that order. *)
Fixpoint handleAll (events : list (OB11Message * Z))
    : Limiter (list HandlerOutcome) :=
  match events with
  | [] => mret []
  | (event, now) :: rest =>
      o ← handleMessage event now; os ← handleAll rest; mret (o :: os)
  end.

End Handler.

(** The number of voice replies among the outcomes of the messages that are
    counted under the key [k]. *)
Fixpoint voiceReplies (k : string) (events : list (OB11Message * Z))
    (outcomes : list HandlerOutcome) : nat :=
  match events, outcomes with
  | (event, _) :: events', o :: outcomes' =>
      (if decide (rateLimitKey (group_id event) = k) then
         if processed o then 1 else 0
       else 0)%nat + voiceReplies k events' outcomes'
  | _, _ => 0%nat
  end.

(** ** Auxiliary notions for the properties *)

(** The four ways through [check] once the two fast paths are excluded. *)
Inductive check_path (key : string) (limit now : Z) (m : Requests) : Prop :=
  | path_absent :
      m !! key = None ->
      check key limit now m = (true, <[key := mkEntry 1 now]> m) ->
      check_path key limit now m
  | path_expired (e : RateLimitEntry) :
      m !! key = Some e -> windowSize <= now - windowStart e ->
      check key limit now m = (true, <[key := mkEntry 1 now]> m) ->
      check_path key limit now m
  | path_exhausted (e : RateLimitEntry) :
      m !! key = Some e -> now - windowStart e < windowSize ->
      limit <= count e ->
      check key limit now m = (false, m) ->
      check_path key limit now m
  | path_counted (e : RateLimitEntry) :
      m !! key = Some e -> now - windowStart e < windowSize ->
      count e < limit ->
      check key limit now m
      = (true, <[key := mkEntry (count e + 1) (windowStart e)]> m) ->
      check_path key limit now m.

(** The chat of the event is a group that is switched off: the condition
    under which [handleMessage] returns at once. *)
Definition chatDisabled (isGroupEnabled : string -> bool)
    (event : OB11Message) : Prop :=
  message_type event = "group"
  /\ exists g, group_id event = Some g /\ g ≠ 0
              /\ isGroupEnabled (pretty g) = false.

(** The text after the command prefix, as [handleMessage] computes it. *)
Definition commandText (trim : string -> string) (event : OB11Message)
    : string :=
  trim (slice (String.length commandPrefix) (orElse (raw_message event) "")).

(** The message starts with the command prefix. *)
Definition isCommand (event : OB11Message) : Prop :=
  String.prefix commandPrefix (orElse (raw_message event) "") = true.

(** The count stored for a key, 0 when it has no entry. *)
Definition countedFor (k : string) (m : Requests) : Z :=
  match m !! k with
  | Some e => count e
  | None => 0
  end.

(** The keys that the [check] calls of a sequence count under: those of the
    calls whose limit is neither -1 nor 0. *)
Fixpoint countedKeys (cs : list (call * Z)) : gset string :=
  match cs with
  | [] => ∅
  | (CallCheck key limit, _) :: cs' =>
      (if decide (limit = -1 \/ limit = 0) then ∅ else {[ key ]})
      ∪ countedKeys cs'
  | _ :: cs' => countedKeys cs'
  end.

(** The call is neither [reset] nor [clear]. *)
Definition is_query (c : call) : bool :=
  match c with
  | CallCheck _ _ | CallGetRemaining _ _ => true
  | _ => false
  end.

(** The call, if it is a [check], has the limit [limit]. *)
Definition has_limit (limit : Z) (c : call) : bool :=
  match c with
  | CallCheck _ l => l =? limit
  | _ => true
  end.

(** The invariant of the map: every stored counter is at least one. *)
Definition counts_positive (m : Requests) : Prop :=
  forall k e, m !! k = Some e -> 1 <= count e.

(** * Properties *)

(** ** The branches of [check] and [getRemaining] *)

Ltac limiter_unfold :=
  unfold check, getRemaining, reset, clear, requests_get, requests_set,
    requests_delete, requests_clear, mbind, mret, Limiter_bind, Limiter_ret;
  simpl; repeat case_decide; simplify_eq; simpl.

Ltac limiter_cases :=
  repeat first
    [ progress simplify_eq
    | match goal with
      | |- context [decide (?a = ?b)] => destruct (decide (a = b))
      | |- context [?a >=? ?b] => destruct (Z.geb_spec a b)
      | H : context [decide (?a = ?b)] |- _ => destruct (decide (a = b))
      | H : context [?a >=? ?b] |- _ => destruct (Z.geb_spec a b)
      end ];
  simpl in *.

Lemma check_unlimited key now m : check key (-1) now m = (true, m).
Proof. reflexivity. Qed.

Lemma check_disabled key now m : check key 0 now m = (false, m).
Proof. reflexivity. Qed.

Lemma check_absent key limit now m :
  limit ≠ -1 -> limit ≠ 0 -> m !! key = None ->
  check key limit now m = (true, <[key := mkEntry 1 now]> m).
Proof. intros ? ? Hk. limiter_unfold. rewrite Hk. by limiter_cases. Qed.

Lemma check_expired key limit now m e :
  limit ≠ -1 -> limit ≠ 0 -> m !! key = Some e ->
  windowSize <= now - windowStart e ->
  check key limit now m = (true, <[key := mkEntry 1 now]> m).
Proof.
  intros ? ? Hk ?. limiter_unfold. rewrite Hk.
  limiter_cases; first [done | lia].
Qed.

Lemma check_exhausted key limit now m e :
  limit ≠ -1 -> limit ≠ 0 -> m !! key = Some e ->
  now - windowStart e < windowSize -> limit <= count e ->
  check key limit now m = (false, m).
Proof.
  intros ? ? Hk ? ?. limiter_unfold. rewrite Hk.
  limiter_cases; first [done | lia].
Qed.

Lemma check_counted key limit now m e :
  limit ≠ -1 -> limit ≠ 0 -> m !! key = Some e ->
  now - windowStart e < windowSize -> count e < limit ->
  check key limit now m
  = (true, <[key := mkEntry (count e + 1) (windowStart e)]> m).
Proof.
  intros ? ? Hk ? ?. limiter_unfold. rewrite Hk.
  limiter_cases; first [done | lia].
Qed.

Lemma getRemaining_state key limit now m :
  (getRemaining key limit now m).2 = m.
Proof.
  limiter_unfold; try done. destruct (m !! key) as [e|]; by limiter_cases.
Qed.

Lemma getRemaining_absent key limit now m :
  limit ≠ -1 -> limit ≠ 0 -> m !! key = None ->
  (getRemaining key limit now m).1 = limit.
Proof. intros ? ? Hk. limiter_unfold. rewrite Hk. by limiter_cases. Qed.

Lemma getRemaining_expired key limit now m e :
  limit ≠ -1 -> limit ≠ 0 -> m !! key = Some e ->
  windowSize <= now - windowStart e ->
  (getRemaining key limit now m).1 = limit.
Proof.
  intros ? ? Hk ?. limiter_unfold. rewrite Hk.
  limiter_cases; first [done | lia].
Qed.

Lemma getRemaining_active key limit now m e :
  limit ≠ -1 -> limit ≠ 0 -> m !! key = Some e ->
  now - windowStart e < windowSize ->
  (getRemaining key limit now m).1 = Z.max 0 (limit - count e).
Proof.
  intros ? ? Hk ?. limiter_unfold. rewrite Hk.
  limiter_cases; first [done | lia].
Qed.

(** A call of [getRemaining] as a step of [run]. *)
Lemma run_getRemaining key limit now cs m :
  run ((CallGetRemaining key limit, now) :: cs) m
  = (ANum (getRemaining key limit now m).1 :: (run cs m).1, (run cs m).2).
Proof.
  simpl. unfold mbind, Limiter_bind, mret, Limiter_ret. simpl.
  pose proof (getRemaining_state key limit now m) as Hs.
  destruct (getRemaining key limit now m) as [n m']; simpl in *; subst m'.
  by destruct (run cs m).
Qed.

(** A call of [check] as a step of [run]. *)
Lemma run_check key limit now cs m :
  run ((CallCheck key limit, now) :: cs) m
  = (ABool (check key limit now m).1
       :: (run cs (check key limit now m).2).1,
     (run cs (check key limit now m).2).2).
Proof.
  simpl. unfold mbind, Limiter_bind, mret, Limiter_ret. simpl.
  destruct (check key limit now m) as [b m']; simpl.
  by destruct (run cs m').
Qed.

(** ** A budget of three *)

(** C1: for a key [k] without entry and [limit = 3], with every call made
    less than 60 seconds after the first one, the first three calls of
    [check k 3] return [true] and the fourth returns [false], and
    [getRemaining k 3] evaluated after the calls 1, 2, 3 and 4 returns
    2, 1, 0 and 0. *)
Theorem budget_of_three_within_one_window
    (m : Requests) (k : string) (t1 r1 t2 r2 t3 r3 t4 r4 : Z) :
  m !! k = None ->
  r1 - t1 < windowSize -> t2 - t1 < windowSize -> r2 - t1 < windowSize ->
  t3 - t1 < windowSize -> r3 - t1 < windowSize -> t4 - t1 < windowSize ->
  r4 - t1 < windowSize ->
  run [ (CallCheck k 3, t1); (CallGetRemaining k 3, r1);
        (CallCheck k 3, t2); (CallGetRemaining k 3, r2);
        (CallCheck k 3, t3); (CallGetRemaining k 3, r3);
        (CallCheck k 3, t4); (CallGetRemaining k 3, r4) ] m
  = ([ ABool true; ANum 2; ABool true; ANum 1;
       ABool true; ANum 0; ABool false; ANum 0 ],
     <[k := mkEntry 3 t1]> m).
Proof.
  intros Hk Hr1 Ht2 Hr2 Ht3 Hr3 Ht4 Hr4.
  rewrite run_check, (check_absent k 3 t1 m) by done. cbn [fst snd].
  set (m1 := <[k := mkEntry 1 t1]> m).
  assert (Hm1 : m1 !! k = Some (mkEntry 1 t1)) by apply lookup_insert_eq.
  rewrite run_getRemaining, (getRemaining_active k 3 r1 m1 _ ltac:(done)
    ltac:(done) Hm1 Hr1).
  rewrite run_check, (check_counted k 3 t2 m1 _ ltac:(done) ltac:(done)
    Hm1 Ht2) by (simpl; lia).
  cbn [fst snd count windowStart]. change (1 + 1) with 2.
  unfold m1. rewrite insert_insert_eq.
  set (m2 := <[k := mkEntry 2 t1]> m).
  assert (Hm2 : m2 !! k = Some (mkEntry 2 t1)) by apply lookup_insert_eq.
  rewrite run_getRemaining, (getRemaining_active k 3 r2 m2 _ ltac:(done)
    ltac:(done) Hm2 Hr2).
  rewrite run_check, (check_counted k 3 t3 m2 _ ltac:(done) ltac:(done)
    Hm2 Ht3) by (simpl; lia).
  cbn [fst snd count windowStart]. change (2 + 1) with 3.
  unfold m2. rewrite insert_insert_eq.
  set (m3 := <[k := mkEntry 3 t1]> m).
  assert (Hm3 : m3 !! k = Some (mkEntry 3 t1)) by apply lookup_insert_eq.
  rewrite run_getRemaining, (getRemaining_active k 3 r3 m3 _ ltac:(done)
    ltac:(done) Hm3 Hr3).
  rewrite run_check, (check_exhausted k 3 t4 m3 _ ltac:(done) ltac:(done)
    Hm3 Ht4) by (simpl; lia).
  cbn [fst snd].
  rewrite run_getRemaining, (getRemaining_active k 3 r4 m3 _ ltac:(done)
    ltac:(done) Hm3 Hr4).
  reflexivity.
Qed.

Lemma budget_of_three_within_one_window_witness :
  run [ (CallCheck "group:7" 3, 1000); (CallGetRemaining "group:7" 3, 1001);
        (CallCheck "group:7" 3, 2000); (CallGetRemaining "group:7" 3, 2001);
        (CallCheck "group:7" 3, 30000); (CallGetRemaining "group:7" 3, 30001);
        (CallCheck "group:7" 3, 60999); (CallGetRemaining "group:7" 3, 60999) ]
      {[ "global" := mkEntry 4 0 ]}
  = ([ ABool true; ANum 2; ABool true; ANum 1;
       ABool true; ANum 0; ABool false; ANum 0 ],
     <["group:7" := mkEntry 3 1000]> {[ "global" := mkEntry 4 0 ]}).
Proof.
  apply (budget_of_three_within_one_window
           {[ "global" := mkEntry 4 0 ]} "group:7"
           1000 1001 2000 2001 30000 30001 60999 60999);
    reflexivity.
Defined.

(** ** What one call of [check] does to the entry of its key *)

Lemma check_paths key limit now m :
  limit ≠ -1 -> limit ≠ 0 -> check_path key limit now m.
Proof.
  intros Hu Hd. destruct (m !! key) as [e|] eqn:Hk.
  - destruct (Z.le_gt_cases windowSize (now - windowStart e)).
    + eapply path_expired; eauto using check_expired.
    + destruct (Z.le_gt_cases limit (count e)).
      * eapply path_exhausted; eauto using check_exhausted.
      * eapply path_counted; eauto using check_counted.
  - apply path_absent; auto using check_absent.
Qed.

(** C2 as stated fails: a call that is denied leaves the entry as it was.
    Here the key [global] has used its budget of one at time 0, and the call
    at time 1 changes nothing. *)
Lemma denied_check_keeps_entry_counterexample :
  ~ (forall (m : Requests) (k : string) (limit now : Z),
        limit ≠ -1 -> limit ≠ 0 ->
        (check k limit now m).2 !! k ≠ m !! k).
Proof.
  intros Hclaim.
  apply (Hclaim {[ "global" := mkEntry 1 0 ]} "global" 1 1); done.
Qed.

(** C2, amended: for a limit other than -1 and 0, [check k limit] creates or
    changes the entry of [k] exactly on the calls that return [true]; a call
    that returns [false] leaves the whole map as it was. *)
Theorem check_changes_entry_iff_accepted
    (m : Requests) (k : string) (limit now : Z) :
  limit ≠ -1 -> limit ≠ 0 ->
  ((check k limit now m).1 = true ->
     is_Some ((check k limit now m).2 !! k)
     /\ (check k limit now m).2 !! k ≠ m !! k)
  /\ ((check k limit now m).1 = false -> (check k limit now m).2 = m).
Proof.
  intros Hu Hd.
  destruct (check_paths k limit now m Hu Hd) as [Hk Hc|e Hk ? Hc|e Hk ? ? Hc|e Hk ? ? Hc];
    rewrite Hc; cbn [fst snd]; (split; [|done]); try done; intros _;
    rewrite lookup_insert_eq, Hk; (split; [by eexists|]).
  - done.
  - intros [= He]. rewrite <- He in *. simpl in *. unfold windowSize in *. lia.
  - intros [= He]. destruct e as [c w]. simpl in *. injection He. lia.
Qed.

Lemma check_changes_entry_iff_accepted_witness :
  ((check "group:1" 2 5 {[ "group:1" := mkEntry 1 0 ]}).1 = true ->
     is_Some ((check "group:1" 2 5 {[ "group:1" := mkEntry 1 0 ]}).2
                !! "group:1")
     /\ (check "group:1" 2 5 {[ "group:1" := mkEntry 1 0 ]}).2 !! "group:1"
        ≠ ({[ "group:1" := mkEntry 1 0 ]} : Requests) !! "group:1")
  /\ ((check "group:1" 2 5 {[ "group:1" := mkEntry 1 0 ]}).1 = false ->
      (check "group:1" 2 5 {[ "group:1" := mkEntry 1 0 ]}).2
      = {[ "group:1" := mkEntry 1 0 ]}).
Proof.
  apply (check_changes_entry_iff_accepted
           {[ "group:1" := mkEntry 1 0 ]} "group:1" 2 5); lia.
Defined.

(** ** Window reset *)

(** After a call of [check] with a counting limit the key has an entry, and
    its window did not start later than the call if that held before. *)
Lemma check_windowStart_le key limit now m :
  limit ≠ -1 -> limit ≠ 0 ->
  (forall e, m !! key = Some e -> windowStart e <= now) ->
  exists e', (check key limit now m).2 !! key = Some e'
             /\ windowStart e' <= now.
Proof.
  intros Hu Hd Hpast.
  destruct (check_paths key limit now m Hu Hd)
    as [Hk Hc|e Hk ? Hc|e Hk ? ? Hc|e Hk ? ? Hc]; rewrite Hc; cbn [fst snd].
  - eexists. rewrite lookup_insert_eq. split; [done | simpl; lia].
  - eexists. rewrite lookup_insert_eq. split; [done | simpl; lia].
  - exists e. auto.
  - eexists. rewrite lookup_insert_eq. split; [done | simpl; auto].
Qed.

(** C3: for [limit > 0], when the key has no entry or its window started at
    least 60000 ms ago, [check] returns [true] and stores the entry
    [count = 1, windowStart = now].  In particular, with [limit = 2]: after
    two accepted checks at [t1 <= t2] and a third call at least 60000 ms
    after the second, the third call returns [true], and [getRemaining]
    within the window it opened returns 1.  (The clock does not run
    backwards: the window found at [t1], if any, did not start after
    [t1].) *)
Theorem check_opens_new_window :
  (forall (m : Requests) (k : string) (limit now : Z),
      0 < limit ->
      (m !! k = None
       \/ exists e, m !! k = Some e /\ windowSize <= now - windowStart e) ->
      check k limit now m = (true, <[k := mkEntry 1 now]> m))
  /\ (forall (m : Requests) (k : string) (t1 t2 t3 t4 : Z),
        (forall e, m !! k = Some e -> windowStart e <= t1) ->
        t1 <= t2 -> t2 + windowSize <= t3 -> t4 - t3 < windowSize ->
        (check k 2 t1 m).1 = true ->
        (check k 2 t2 (check k 2 t1 m).2).1 = true ->
        let m2 := (check k 2 t2 (check k 2 t1 m).2).2 in
        check k 2 t3 m2 = (true, <[k := mkEntry 1 t3]> m2)
        /\ (getRemaining k 2 t4 (check k 2 t3 m2).2).1 = 1).
Proof.
  split.
  - intros m k limit now Hpos [Hk|(e & Hk & Hold)].
    + apply check_absent; (done || lia).
    + eapply check_expired; eauto; lia.
  - intros m k t1 t2 t3 t4 Hpast H12 H23 H34 _ _ m2.
    destruct (check_windowStart_le k 2 t1 m) as (e1 & He1 & Hw1);
      [done | done | done |].
    destruct (check_windowStart_le k 2 t2 (check k 2 t1 m).2)
      as (e2 & He2 & Hw2); [done | done | |].
    { intros e He. rewrite He1 in He. injection He as <-. lia. }
    fold m2 in He2.
    assert (Hc : check k 2 t3 m2 = (true, <[k := mkEntry 1 t3]> m2)).
    { eapply check_expired; eauto; lia. }
    split; [done |]. rewrite Hc. cbn [snd].
    erewrite getRemaining_active;
      [ | done | done | apply lookup_insert_eq | simpl; lia ].
    reflexivity.
Qed.

Lemma check_opens_new_window_witness :
  check "group:1" 2 70000 {[ "group:1" := mkEntry 2 0 ]}
  = (true, <["group:1" := mkEntry 1 70000]> {[ "group:1" := mkEntry 2 0 ]})
  /\ (let m2 := (check "global" 2 10 (check "global" 2 0 ∅).2).2 in
      check "global" 2 60010 m2 = (true, <["global" := mkEntry 1 60010]> m2)
      /\ (getRemaining "global" 2 60011 (check "global" 2 60010 m2).2).1 = 1).
Proof.
  split.
  - apply (proj1 check_opens_new_window
             {[ "group:1" := mkEntry 2 0 ]} "group:1" 2 70000); [lia |].
    right. exists (mkEntry 2 0). split; [reflexivity | vm_compute; discriminate].
  - apply (proj2 check_opens_new_window ∅ "global" 0 10 60010 60011);
      try reflexivity; vm_compute; discriminate.
Defined.

(** ** [getRemaining] is read-only *)

Lemma run_only_getRemaining (cs : list (call * Z)) (m : Requests) :
  forallb (fun c => is_getRemaining c.1) cs = true -> (run cs m).2 = m.
Proof.
  induction cs as [|[c now] cs IH]; [done |]. simpl forallb.
  intros [Hc Hcs]%andb_prop. destruct c; try discriminate.
  rewrite run_getRemaining. cbn [snd]. auto.
Qed.

(** C4: [getRemaining] returns the map it was given, for every key, limit,
    time and map (so also when the entry of the key has expired); hence a
    [check] made after any sequence of [getRemaining] calls, with any keys,
    limits and times, returns what it returns without them and leaves the
    same map. *)
Theorem getRemaining_is_read_only
    (m : Requests) (k : string) (limit now : Z) :
  (getRemaining k limit now m).2 = m
  /\ forall (qs : list (call * Z)) (k' : string) (limit' now' : Z),
       forallb (fun c => is_getRemaining c.1) qs = true ->
       check k' limit' now' (run qs m).2 = check k' limit' now' m
       /\ (run (qs ++ [(CallCheck k' limit', now')]) m).2
          = (check k' limit' now' m).2
       /\ last (run (qs ++ [(CallCheck k' limit', now')]) m).1
          = Some (ABool (check k' limit' now' m).1).
Proof.
  split; [apply getRemaining_state |].
  intros qs k' limit' now' Hqs.
  split; [by rewrite run_only_getRemaining |].
  clear k limit now. revert m.
  induction qs as [|[c t] qs IH]; intros m.
  - simpl app. rewrite run_check. simpl. done.
  - simpl in Hqs. apply andb_prop in Hqs as [Hc Hqs].
    destruct c; try discriminate.
    rewrite <- app_comm_cons, run_getRemaining. cbn [fst snd].
    destruct (IH Hqs m) as [IH1 IH2]. split; [done |].
    rewrite last_cons, IH2. done.
Qed.

Lemma getRemaining_is_read_only_witness :
  check "global" 1 70000
    (run [ (CallGetRemaining "global" 1, 60000); (CallGetRemaining "group:2" 5, 60001) ]
         {[ "global" := mkEntry 1 0 ]}).2
  = check "global" 1 70000 {[ "global" := mkEntry 1 0 ]}.
Proof.
  apply (proj2 (getRemaining_is_read_only
                  {[ "global" := mkEntry 1 0 ]} "global" 1 60000)
           [ (CallGetRemaining "global" 1, 60000); (CallGetRemaining "group:2" 5, 60001) ]
           "global" 1 70000).
  reflexivity.
Defined.

(** ** The two fast paths *)

(** C5: with [limit = -1], [check] returns [true] on every call of any
    sequence of calls and the map stays as it was (no entry is created or
    changed), and [getRemaining] returns -1 before and after. *)
Theorem unlimited_never_touches_state
    (m : Requests) (k : string) (now : Z) (times : list Z) :
  check k (-1) now m = (true, m)
  /\ getRemaining k (-1) now m = (-1, m)
  /\ run (map (fun t => (CallCheck k (-1), t)) times) m
     = (map (fun _ => ABool true) times, m)
  /\ (getRemaining k (-1) now
        (run (map (fun t => (CallCheck k (-1), t)) times) m).2).1 = -1.
Proof.
  assert (Hrun : run (map (fun t => (CallCheck k (-1), t)) times) m
                 = (map (fun _ => ABool true) times, m)).
  { induction times as [|t times IH]; [done |].
    simpl map. rewrite run_check, check_unlimited. cbn [fst snd].
    by rewrite IH. }
  rewrite Hrun. done.
Qed.

(** C6: with [limit = 0], [check] returns [false] on every call of any
    sequence of calls and the map stays as it was, and [getRemaining]
    returns 0. *)
Theorem disabled_never_touches_state
    (m : Requests) (k : string) (now : Z) (times : list Z) :
  check k 0 now m = (false, m)
  /\ getRemaining k 0 now m = (0, m)
  /\ run (map (fun t => (CallCheck k 0, t)) times) m
     = (map (fun _ => ABool false) times, m)
  /\ (getRemaining k 0 now
        (run (map (fun t => (CallCheck k 0, t)) times) m).2).1 = 0.
Proof.
  assert (Hrun : run (map (fun t => (CallCheck k 0, t)) times) m
                 = (map (fun _ => ABool false) times, m)).
  { induction times as [|t times IH]; [done |].
    simpl map. rewrite run_check, check_disabled. cbn [fst snd].
    by rewrite IH. }
  rewrite Hrun. done.
Qed.

(** ** Stored counts are positive *)

Lemma counts_positive_insert m k e :
  counts_positive m -> 1 <= count e -> counts_positive (<[k := e]> m).
Proof.
  intros Hm He k' e'. rewrite lookup_insert. case_decide.
  - by intros [= <-].
  - apply Hm.
Qed.

Lemma counts_positive_check key limit now m :
  counts_positive m -> counts_positive (check key limit now m).2.
Proof.
  intros Hm.
  destruct (decide (limit = -1)) as [->|Hu]; [done |].
  destruct (decide (limit = 0)) as [->|Hd]; [done |].
  destruct (check_paths key limit now m Hu Hd)
    as [Hk Hc|e Hk ? Hc|e Hk ? ? Hc|e Hk ? ? Hc]; rewrite Hc; cbn [snd];
    try done; apply counts_positive_insert; try done; simpl.
  specialize (Hm key e Hk). lia.
Qed.

Lemma counts_positive_perform c now m :
  counts_positive m -> counts_positive (perform c now m).2.
Proof.
  intros Hm. destruct c as [key limit|key limit|key|]; simpl;
    unfold mbind, Limiter_bind, mret, Limiter_ret.
  - pose proof (counts_positive_check key limit now m Hm).
    by destruct (check key limit now m).
  - pose proof (getRemaining_state key limit now m).
    destruct (getRemaining key limit now m); simpl in *. by subst.
  - intros k e. simpl. rewrite lookup_delete. case_decide; [done | apply Hm].
  - intros k e. simpl. by rewrite lookup_empty.
Qed.

Lemma run_cons c now cs m :
  (run ((c, now) :: cs) m).2 = (run cs (perform c now m).2).2.
Proof.
  simpl. unfold mbind, Limiter_bind, mret, Limiter_ret.
  destruct (perform c now m) as [a m']. simpl. by destruct (run cs m').
Qed.

Lemma counts_positive_run cs m :
  counts_positive m -> counts_positive (run cs m).2.
Proof.
  revert m. induction cs as [|[c now] cs IH]; intros m Hm; [done |].
  rewrite run_cons. by apply IH, counts_positive_perform.
Qed.

Lemma counts_positive_reached cs : counts_positive (run cs ∅).2.
Proof. apply counts_positive_run. intros k e. by rewrite lookup_empty. Qed.

(** C7: in every state reached from the empty map by a sequence of [check],
    [getRemaining], [reset] and [clear] calls, with any keys, limits and
    times, every key that has an entry has [count >= 1]. *)
Theorem reachable_counts_at_least_one
    (cs : list (call * Z)) (k : string) (e : RateLimitEntry) :
  (run cs ∅).2 !! k = Some e -> 1 <= count e.
Proof. apply counts_positive_reached. Qed.

Lemma reachable_counts_at_least_one_witness :
  (run [ (CallCheck "global" 2, 0); (CallCheck "group:9" (-7), 1);
         (CallCheck "global" 2, 2); (CallReset "group:9", 3);
         (CallCheck "global" 2, 4) ] ∅).2 !! "global" = Some (mkEntry 2 0)
  /\ 1 <= count (mkEntry 2 0).
Proof.
  split; [reflexivity |].
  apply (reachable_counts_at_least_one
           [ (CallCheck "global" 2, 0); (CallCheck "group:9" (-7), 1);
             (CallCheck "global" 2, 2); (CallReset "group:9", 3);
             (CallCheck "global" 2, 4) ]
           "global" (mkEntry 2 0)).
  reflexivity.
Defined.

(** ** Keys are independent *)

Lemma check_other_key key key' limit now m :
  key ≠ key' -> (check key limit now m).2 !! key' = m !! key'.
Proof.
  intros Hne.
  destruct (decide (limit = -1)) as [->|Hu]; [done |].
  destruct (decide (limit = 0)) as [->|Hd]; [done |].
  destruct (check_paths key limit now m Hu Hd)
    as [Hk Hc|e Hk ? Hc|e Hk ? ? Hc|e Hk ? ? Hc]; rewrite Hc; cbn [snd];
    try done; by rewrite lookup_insert_ne.
Qed.

(** The answer of [check] and the entry it leaves for its key are determined
    by the entry it finds for that key. *)
Lemma check_depends_on_entry key limit now m m' :
  m !! key = m' !! key ->
  (check key limit now m).1 = (check key limit now m').1
  /\ (check key limit now m).2 !! key = (check key limit now m').2 !! key.
Proof.
  intros Heq. limiter_unfold; try done.
  rewrite <- Heq. destruct (m !! key) as [e|] eqn:Hk; limiter_cases;
    rewrite ?lookup_insert_eq; first [done | split; congruence].
Qed.

Lemma getRemaining_depends_on_entry key limit now m m' :
  m !! key = m' !! key ->
  (getRemaining key limit now m).1 = (getRemaining key limit now m').1.
Proof.
  intros Heq. limiter_unfold; try done.
  rewrite <- Heq. destruct (m !! key) as [e|]; by limiter_cases.
Qed.

(** C8: for distinct keys [k1] and [k2], a sequence of [check] calls on [k1]
    (with any limits, at any times) leaves the entry of [k2] as it was, so
    [check] and [getRemaining] on [k2] answer as if those calls had not
    happened, and [check] leaves the same entry for [k2]. *)
Theorem distinct_keys_do_not_interfere
    (m : Requests) (k1 k2 : string) (calls : list (Z * Z)) (limit now : Z) :
  k1 ≠ k2 ->
  let m' := (run (map (fun c => (CallCheck k1 c.1, c.2)) calls) m).2 in
  m' !! k2 = m !! k2
  /\ (check k2 limit now m').1 = (check k2 limit now m).1
  /\ (check k2 limit now m').2 !! k2 = (check k2 limit now m).2 !! k2
  /\ (getRemaining k2 limit now m').1 = (getRemaining k2 limit now m).1.
Proof.
  intros Hne m'.
  assert (Hsame : m' !! k2 = m !! k2).
  { unfold m'. clear m'. revert m.
    induction calls as [|[l t] calls IH]; intros m; [done |].
    simpl map. rewrite run_check. cbn [fst snd].
    rewrite IH. by apply check_other_key. }
  split; [done |].
  destruct (check_depends_on_entry k2 limit now m' m Hsame) as [H1 H2].
  split; [done |]. split; [done |].
  by apply getRemaining_depends_on_entry.
Qed.

Lemma distinct_keys_do_not_interfere_witness :
  let m' := (run (map (fun c => (CallCheck "group:1" c.1, c.2))
                      [(2, 10); (2, 11); (2, 12)]) ∅).2 in
  m' !! "group:2" = (∅ : Requests) !! "group:2"
  /\ (check "group:2" 2 13 m').1 = (check "group:2" 2 13 ∅).1
  /\ (check "group:2" 2 13 m').2 !! "group:2"
     = (check "group:2" 2 13 ∅).2 !! "group:2"
  /\ (getRemaining "group:2" 2 13 m').1 = (getRemaining "group:2" 2 13 ∅).1.
Proof.
  apply (distinct_keys_do_not_interfere
           ∅ "group:1" "group:2" [(2, 10); (2, 11); (2, 12)] 2 13).
  vm_compute. discriminate.
Defined.

(** ** Limits below -1 *)

(** Denied calls in an open window, one after the other. *)
Lemma run_denied key limit (times : list Z) m e :
  limit ≠ -1 -> limit ≠ 0 -> m !! key = Some e -> limit <= count e ->
  Forall (fun t => t - windowStart e < windowSize) times ->
  run (map (fun t => (CallCheck key limit, t)) times) m
  = (map (fun _ => ABool false) times, m).
Proof.
  intros Hu Hd Hk Hfull. induction 1 as [|t times Ht _ IH]; [done |].
  simpl map. rewrite run_check, (check_exhausted key limit t m e) by done.
  cbn [fst snd]. by rewrite IH.
Qed.

(** C9: for [limit < -1], in any state the limiter can reach, [check k limit]
    does what [check k 1] does.  Without entry or with an expired one it
    stores [count = 1, windowStart = now] and returns [true], and every
    later call within that window returns [false] and changes nothing;
    [getRemaining k limit] returns the negative [limit] without entry or
    with an expired one, and 0 when the window is open. *)
Theorem negative_limit_acts_as_limit_one
    (cs : list (call * Z)) (k : string) (limit now : Z) :
  limit < -1 ->
  let m := (run cs ∅).2 in
  check k limit now m = check k 1 now m
  /\ ((m !! k = None
       \/ exists e, m !! k = Some e /\ windowSize <= now - windowStart e) ->
      check k limit now m = (true, <[k := mkEntry 1 now]> m)
      /\ (getRemaining k limit now m).1 = limit
      /\ forall later : list Z,
           Forall (fun t => t - now < windowSize) later ->
           run (map (fun t => (CallCheck k limit, t)) later)
               (<[k := mkEntry 1 now]> m)
           = (map (fun _ => ABool false) later, <[k := mkEntry 1 now]> m))
  /\ (forall e, m !! k = Some e -> now - windowStart e < windowSize ->
      check k limit now m = (false, m)
      /\ (getRemaining k limit now m).1 = 0).
Proof.
  intros Hneg m.
  assert (Hu : limit ≠ -1) by lia. assert (Hd : limit ≠ 0) by lia.
  pose proof (counts_positive_reached cs k) as Hpos. fold m in Hpos.
  split; [| split].
  - destruct (check_paths k limit now m Hu Hd)
      as [Hk Hc|e Hk ? Hc|e Hk ? ? Hc|e Hk ? ? Hc]; rewrite Hc; symmetry.
    + by apply check_absent.
    + by eapply check_expired.
    + eapply check_exhausted; eauto.
    + specialize (Hpos e Hk). lia.
  - intros Hfresh. split; [| split].
    + destruct Hfresh as [Hk|(e & Hk & Hold)];
        [by apply check_absent | by eapply check_expired].
    + destruct Hfresh as [Hk|(e & Hk & Hold)];
        [by apply getRemaining_absent | by eapply getRemaining_expired].
    + intros later Hlater.
      apply (run_denied k limit later _ (mkEntry 1 now));
        [done | done | apply lookup_insert_eq | simpl; lia | done].
  - intros e Hk Hopen. specialize (Hpos e Hk). split.
    + eapply check_exhausted; eauto. lia.
    + erewrite getRemaining_active by eauto. lia.
Qed.

Lemma negative_limit_acts_as_limit_one_witness :
  let m := (run [ (CallCheck "global" 4, 0); (CallCheck "global" 4, 5) ] ∅).2 in
  check "global" (-3) 9 m = check "global" 1 9 m
  /\ ((m !! "global" = None
       \/ exists e, m !! "global" = Some e
                    /\ windowSize <= 9 - windowStart e) ->
      check "global" (-3) 9 m = (true, <["global" := mkEntry 1 9]> m)
      /\ (getRemaining "global" (-3) 9 m).1 = -3
      /\ forall later : list Z,
           Forall (fun t => t - 9 < windowSize) later ->
           run (map (fun t => (CallCheck "global" (-3), t)) later)
               (<["global" := mkEntry 1 9]> m)
           = (map (fun _ => ABool false) later,
              <["global" := mkEntry 1 9]> m))
  /\ (forall e, m !! "global" = Some e -> 9 - windowStart e < windowSize ->
      check "global" (-3) 9 m = (false, m)
      /\ (getRemaining "global" (-3) 9 m).1 = 0).
Proof.
  apply (negative_limit_acts_as_limit_one
           [ (CallCheck "global" 4, 0); (CallCheck "global" 4, 5) ] "global" (-3) 9).
  lia.
Defined.

(** ** The key the wrappers use *)

Lemma rateLimitKey_cases (groupId : option Z) :
  rateLimitKey groupId
  = match groupId with
    | None => "global"
    | Some g => if decide (g = 0) then "global" else "group:" +:+ pretty g
    end.
Proof.
  destruct groupId as [g|]; [| done]. unfold rateLimitKey, truthy.
  destruct (Z.eqb_spec g 0); by case_decide.
Qed.

(** C10: the wrappers choose the key by the truthiness of [groupId]: an
    absent [groupId] and [groupId = 0] both give the key [global], and only
    a nonzero [groupId] gives [group:<groupId>] (which is never [global]).
    [getRateLimitRemaining], [resetRateLimit] and [generateManboVoice] (once
    an API URL is configured) act on the limiter under that key. *)
Theorem wrappers_key_by_truthiness
    (config : PluginConfig) (groupId : option Z) (now : Z) (m : Requests) :
  let limit := default (-1) (manboRateLimit config) in
  let key := match groupId with
             | None => "global"
             | Some g =>
                 if decide (g = 0) then "global" else "group:" +:+ pretty g
             end in
  (key = "global" <-> groupId = None \/ groupId = Some 0)
  /\ getRateLimitRemaining config groupId now m = getRemaining key limit now m
  /\ resetRateLimit groupId m = reset key m
  /\ (forall (trim : string -> string)
             (callManboApi : string -> string -> VoiceResult)
             (text url : string),
        manboApiUrl config = Some url -> trim url ≠ "" ->
        (generateManboVoice trim callManboApi config text groupId now m).2
        = (check key limit now m).2
        /\ ((check key limit now m).1 = false ->
            success (generateManboVoice trim callManboApi config text
                       groupId now m).1 = false)
        /\ ((check key limit now m).1 = true ->
            (generateManboVoice trim callManboApi config text
               groupId now m).1 = callManboApi (trim url) text)).
Proof.
  intros limit key.
  assert (Hkey : rateLimitKey groupId = key) by apply rateLimitKey_cases.
  split; [| split; [| split]].
  - unfold key. destruct groupId as [g|]; [| by intuition].
    case_decide; subst.
    + by intuition.
    + split; [discriminate |]. intros [|]; congruence.
  - unfold getRateLimitRemaining. by rewrite Hkey.
  - unfold resetRateLimit. by rewrite Hkey.
  - intros trim callManboApi text url Hurl Htrim.
    unfold generateManboVoice, mbind, Limiter_bind, mret, Limiter_ret.
    rewrite Hurl, Hkey. fold limit. cbn [fmap option_fmap option_map].
    destruct (trim url) as [|a u]; [done |].
    destruct (check key limit now m) as [[|] m']; simpl; done.
Qed.

Lemma wrappers_key_by_truthiness_witness :
  getRateLimitRemaining (mkConfig (Some "http://api") (Some 1)) (Some 0) 7
    {[ "global" := mkEntry 1 0 ]}
  = getRemaining "global" 1 7 {[ "global" := mkEntry 1 0 ]}
  /\ (generateManboVoice (fun s => s) (fun _ _ => mkVoice true (Some "u") None)
        (mkConfig (Some "http://api") (Some 1)) "hi" (Some 0) 7
        {[ "global" := mkEntry 1 0 ]}).2
     = (check "global" 1 7 {[ "global" := mkEntry 1 0 ]}).2.
Proof.
  pose proof (wrappers_key_by_truthiness
                (mkConfig (Some "http://api") (Some 1)) (Some 0) 7
                {[ "global" := mkEntry 1 0 ]}) as (_ & Hrem & _ & Hgen).
  split; [exact Hrem |].
  apply (Hgen (fun s => s) (fun _ _ => mkVoice true (Some "u") None)
           "hi" "http://api"); [reflexivity | discriminate].
Defined.

(** * Further properties of the limiter *)

(** ** [check] and [getRemaining] agree *)

(** X1: for a positive limit, at the same time and in the same state,
    [check] accepts exactly when [getRemaining] reports a positive
    remainder. *)
Theorem check_accepts_iff_budget_remains
    (m : Requests) (k : string) (limit now : Z) :
  0 < limit ->
  (check k limit now m).1 = true <-> 0 < (getRemaining k limit now m).1.
Proof.
  intros Hpos.
  assert (Hu : limit ≠ -1) by lia. assert (Hd : limit ≠ 0) by lia.
  destruct (check_paths k limit now m Hu Hd)
    as [Hk Hc|e Hk ? Hc|e Hk ? ? Hc|e Hk ? ? Hc]; rewrite Hc; cbn [fst].
  - rewrite getRemaining_absent by done. done.
  - erewrite getRemaining_expired by done. done.
  - erewrite getRemaining_active by done. split; [done | lia].
  - erewrite getRemaining_active by done. split; [lia | done].
Qed.

Lemma check_accepts_iff_budget_remains_witness :
  (check "group:5" 2 100 {[ "group:5" := mkEntry 1 90 ]}).1 = true
  <-> 0 < (getRemaining "group:5" 2 100 {[ "group:5" := mkEntry 1 90 ]}).1.
Proof.
  apply (check_accepts_iff_budget_remains
           {[ "group:5" := mkEntry 1 90 ]} "group:5" 2 100).
  lia.
Defined.

(** X2: for a positive limit, an accepted [check] lowers what
    [getRemaining] reports at that time by exactly one, and a denied [check]
    happens only when it reports 0 (and leaves it at 0). *)
Theorem accepted_check_uses_one_unit
    (m : Requests) (k : string) (limit now : Z) :
  0 < limit ->
  ((check k limit now m).1 = true ->
   (getRemaining k limit now (check k limit now m).2).1
   = (getRemaining k limit now m).1 - 1)
  /\ ((check k limit now m).1 = false ->
      (getRemaining k limit now m).1 = 0
      /\ (getRemaining k limit now (check k limit now m).2).1 = 0).
Proof.
  intros Hpos.
  assert (Hu : limit ≠ -1) by lia. assert (Hd : limit ≠ 0) by lia.
  assert (Hnew : (getRemaining k limit now (<[k := mkEntry 1 now]> m)).1
                 = limit - 1).
  { erewrite getRemaining_active;
      [ | done | done | apply lookup_insert_eq | simpl; unfold windowSize; lia ].
    simpl. lia. }
  destruct (check_paths k limit now m Hu Hd)
    as [Hk Hc|e Hk ? Hc|e Hk ? ? Hc|e Hk ? ? Hc]; rewrite Hc; cbn [fst snd];
    (split; [intros Hacc | intros Hden]); try discriminate.
  - rewrite Hnew, getRemaining_absent by done. done.
  - rewrite Hnew. erewrite getRemaining_expired by done. done.
  - erewrite getRemaining_active by done. split; lia.
  - erewrite (getRemaining_active k limit now (<[k := _]> m));
      [ | done | done | apply lookup_insert_eq | done ].
    erewrite (getRemaining_active k limit now m) by done. simpl. lia.
Qed.

Lemma accepted_check_uses_one_unit_witness :
  ((check "global" 3 100 {[ "global" := mkEntry 1 90 ]}).1 = true ->
   (getRemaining "global" 3 100
      (check "global" 3 100 {[ "global" := mkEntry 1 90 ]}).2).1
   = (getRemaining "global" 3 100 {[ "global" := mkEntry 1 90 ]}).1 - 1)
  /\ ((check "global" 3 100 {[ "global" := mkEntry 1 90 ]}).1 = false ->
      (getRemaining "global" 3 100 {[ "global" := mkEntry 1 90 ]}).1 = 0
      /\ (getRemaining "global" 3 100
            (check "global" 3 100 {[ "global" := mkEntry 1 90 ]}).2).1 = 0).
Proof.
  apply (accepted_check_uses_one_unit
           {[ "global" := mkEntry 1 90 ]} "global" 3 100).
  lia.
Defined.

(** X3: in every state the limiter can reach, for a positive limit,
    [getRemaining] is between 0 and the limit, and it is below the limit
    while the window of the key is open. *)
Theorem getRemaining_within_limit
    (cs : list (call * Z)) (k : string) (limit now : Z) :
  0 < limit ->
  let m := (run cs ∅).2 in
  0 <= (getRemaining k limit now m).1 <= limit
  /\ (forall e, m !! k = Some e -> now - windowStart e < windowSize ->
      (getRemaining k limit now m).1 < limit).
Proof.
  intros Hpos m.
  assert (Hu : limit ≠ -1) by lia. assert (Hd : limit ≠ 0) by lia.
  pose proof (counts_positive_reached cs k) as Hcount. fold m in Hcount.
  split.
  - destruct (m !! k) as [e|] eqn:Hk.
    + destruct (Z.le_gt_cases windowSize (now - windowStart e)).
      * erewrite getRemaining_expired by done. lia.
      * erewrite getRemaining_active by done.
        specialize (Hcount e eq_refl). lia.
    + rewrite getRemaining_absent by done. lia.
  - intros e Hk Hopen. erewrite getRemaining_active by done.
    specialize (Hcount e Hk). lia.
Qed.

Lemma getRemaining_within_limit_witness :
  let m := (run [ (CallCheck "global" 2, 0); (CallCheck "global" 5, 1);
                  (CallCheck "global" 5, 2) ] ∅).2 in
  0 <= (getRemaining "global" 2 3 m).1 <= 2
  /\ (forall e, m !! "global" = Some e -> 3 - windowStart e < windowSize ->
      (getRemaining "global" 2 3 m).1 < 2).
Proof.
  apply (getRemaining_within_limit
           [ (CallCheck "global" 2, 0); (CallCheck "global" 5, 1);
             (CallCheck "global" 5, 2) ] "global" 2 3).
  lia.
Defined.

(** ** The budget of a window, for any limit *)


(** Checks in an open window: the first [limit - count] are accepted. *)
Lemma run_open_window k limit (times : list Z) :
  forall (m : Requests) (c ws : Z),
    limit ≠ -1 -> limit ≠ 0 -> m !! k = Some (mkEntry c ws) ->
    Forall (fun t => t - ws < windowSize) times ->
    let granted := Nat.min (length times) (Z.to_nat (limit - c)) in
    run (map (fun t => (CallCheck k limit, t)) times) m
    = (replicate granted (ABool true)
         ++ replicate (length times - granted) (ABool false),
       <[k := mkEntry (c + Z.of_nat granted) ws]> m).
Proof.
  induction times as [|t times IH]; intros m c ws Hu Hd Hk Hin.
  - simpl. rewrite Z.add_0_r. by rewrite insert_id.
  - apply Forall_cons in Hin as [Ht Hin]. cbn zeta. simpl map.
    rewrite run_check.
    destruct (Z.le_gt_cases limit c) as [Hfull|Hroom].
    + rewrite (check_exhausted k limit t m (mkEntry c ws)) by done.
      cbn [fst snd]. rewrite (IH m c ws) by done. cbn zeta.
      replace (Z.to_nat (limit - c)) with 0%nat by lia.
      rewrite !Nat.min_0_r. simpl. by rewrite Nat.sub_0_r.
    + rewrite (check_counted k limit t m (mkEntry c ws)) by done.
      cbn [fst snd count windowStart].
      rewrite (IH _ (c + 1) ws);
        [ | done | done | apply lookup_insert_eq | done ].
      cbn zeta. rewrite insert_insert_eq.
      replace (Z.to_nat (limit - c)) with (S (Z.to_nat (limit - (c + 1))))
        by lia.
      cbn [length]. rewrite <- Nat.succ_min_distr.
      cbn [replicate app Nat.sub fst snd]. do 3 f_equal. lia.
Qed.

(** Checks that start a new window: the first [limit] are accepted. *)
Lemma run_new_window k limit (t1 : Z) (later : list Z) (m : Requests) :
  0 < limit ->
  (m !! k = None
   \/ exists e, m !! k = Some e /\ windowSize <= t1 - windowStart e) ->
  Forall (fun t => t - t1 < windowSize) later ->
  let granted := Nat.min (S (length later)) (Z.to_nat limit) in
  run (map (fun t => (CallCheck k limit, t)) (t1 :: later)) m
  = (replicate granted (ABool true)
       ++ replicate (S (length later) - granted) (ABool false),
     <[k := mkEntry (Z.of_nat granted) t1]> m).
Proof.
  intros Hpos Hnew Hin. cbn zeta. simpl map. rewrite run_check.
  assert (Hc : check k limit t1 m = (true, <[k := mkEntry 1 t1]> m)).
  { destruct Hnew as [Hk|(e & Hk & Hold)];
      [apply check_absent | eapply check_expired]; eauto; lia. }
  rewrite Hc. cbn [fst snd].
  rewrite (run_open_window k limit later _ 1 t1);
    [ | lia | lia | apply lookup_insert_eq | done ].
  cbn zeta. rewrite insert_insert_eq.
  replace (Z.to_nat limit) with (S (Z.to_nat (limit - 1))) by lia.
  rewrite <- Nat.succ_min_distr. cbn [replicate app Nat.sub fst snd].
  do 3 f_equal. lia.
Qed.

(** X4: for a positive limit and a key without entry (or with an expired
    one), of [n] calls of [check] that all come less than 60000 ms after the
    first, exactly the first [min n limit] are accepted and the others are
    denied; the entry then holds that count and the time of the first
    call. *)
Theorem window_grants_exactly_limit
    (m : Requests) (k : string) (limit t1 : Z) (later : list Z) :
  0 < limit ->
  (m !! k = None
   \/ exists e, m !! k = Some e /\ windowSize <= t1 - windowStart e) ->
  Forall (fun t => t - t1 < windowSize) later ->
  let n := S (length later) in
  let granted := Nat.min n (Z.to_nat limit) in
  run (map (fun t => (CallCheck k limit, t)) (t1 :: later)) m
  = (replicate granted (ABool true) ++ replicate (n - granted) (ABool false),
     <[k := mkEntry (Z.of_nat granted) t1]> m).
Proof. apply run_new_window. Qed.

Lemma window_grants_exactly_limit_witness :
  run (map (fun t => (CallCheck "group:3" 2, t)) [10; 20; 30; 60009]) ∅
  = ([ABool true; ABool true; ABool false; ABool false],
     <["group:3" := mkEntry 2 10]> ∅).
Proof.
  apply (window_grants_exactly_limit ∅ "group:3" 2 10 [20; 30; 60009]).
  - lia.
  - left. reflexivity.
  - repeat constructor.
Defined.



(** ** [reset] and [clear] *)

(** X6: after [reset k], [getRemaining k limit] returns [limit] for every
    limit, a counting [check k limit] is accepted and opens a window at the
    time of the call, and the entries of the other keys are as before;
    resetting twice is resetting once, and resetting a key without entry
    changes nothing. *)
Theorem reset_gives_back_the_budget
    (m : Requests) (k : string) (limit now : Z) :
  let m' := (reset k m).2 in
  (getRemaining k limit now m').1 = limit
  /\ (limit ≠ -1 -> limit ≠ 0 ->
      check k limit now m' = (true, <[k := mkEntry 1 now]> m))
  /\ (forall k', k ≠ k' -> m' !! k' = m !! k')
  /\ (reset k m').2 = m'
  /\ (m !! k = None -> m' = m).
Proof.
  intros m'. unfold m', reset, requests_delete. cbn [snd].
  assert (Hgone : delete k m !! k = None) by apply lookup_delete_eq.
  split; [| split; [| split; [| split]]].
  - destruct (decide (limit = -1)) as [->|Hu]; [done |].
    destruct (decide (limit = 0)) as [->|Hd]; [done |].
    by apply getRemaining_absent.
  - intros Hu Hd. rewrite check_absent by done.
    by rewrite insert_delete_eq.
  - intros k' Hne. by apply lookup_delete_ne.
  - apply delete_id. apply lookup_delete_eq.
  - apply delete_id.
Qed.

Lemma reset_gives_back_the_budget_witness :
  check "global" 1 7 (reset "global" {[ "global" := mkEntry 1 0 ]}).2
  = (true, <["global" := mkEntry 1 7]> {[ "global" := mkEntry 1 0 ]}).
Proof.
  apply (proj1 (proj2 (reset_gives_back_the_budget
                         {[ "global" := mkEntry 1 0 ]} "global" 1 7)));
    lia.
Defined.

(** X7: after [clear] the limiter is as newly constructed, whatever it has
    counted: every later sequence of calls returns what it returns on a new
    limiter and leaves the same map, and [getRemaining] returns the limit
    for every key. *)
Theorem clear_forgets_everything
    (m : Requests) (now : Z) (cs : list (call * Z)) :
  run ((CallClear, now) :: cs) m = (AVoid :: (run cs ∅).1, (run cs ∅).2)
  /\ (clearAllRateLimits m).2 = ∅
  /\ forall (k : string) (limit t : Z),
       (getRemaining k limit t (clear m).2).1 = limit.
Proof.
  split; [| split].
  - cbn [run perform]. unfold mbind, Limiter_bind, mret, Limiter_ret.
    simpl. by destruct (run cs ∅).
  - done.
  - intros k limit t. simpl.
    destruct (decide (limit = -1)) as [->|Hu]; [done |].
    destruct (decide (limit = 0)) as [->|Hd]; [done |].
    by apply getRemaining_absent.
Qed.

(** ** Keys of different chats *)

Lemma rateLimitKey_eq_iff (g1 g2 : option Z) :
  rateLimitKey g1 = rateLimitKey g2
  <-> (truthy g1 = false /\ truthy g2 = false) \/ g1 = g2.
Proof.
  rewrite !rateLimitKey_cases. unfold truthy.
  destruct g1 as [a|], g2 as [b|];
    try destruct (Z.eqb_spec a 0); try destruct (Z.eqb_spec b 0);
    repeat case_decide; try lia; subst; cbn [negb].
  - intuition congruence.
  - split; [discriminate | intuition congruence].
  - split; [discriminate | intuition congruence].
  - split; [| intuition congruence].
    intros Heq. right. f_equal.
    apply (inj (String.app "group:")) in Heq. by apply (inj pretty).
  - intuition congruence.
  - split; [discriminate | intuition congruence].
  - intuition congruence.
  - split; [discriminate | intuition congruence].
  - intuition congruence.
Qed.

(** X8: two group ids are counted under the same key exactly when they are
    equal or both falsy (absent or 0): different groups never share a
    budget, and the only chats that share one are those counted as
    [global]. *)
Theorem rateLimitKey_separates_groups (g1 g2 : option Z) :
  rateLimitKey g1 = rateLimitKey g2
  <-> (truthy g1 = false /\ truthy g2 = false) \/ g1 = g2.
Proof. apply rateLimitKey_eq_iff. Qed.

(** ** The service functions *)

(** The two ways through [generateManboVoice]: it stops at the missing URL,
    or it consults the limiter once and answers by what [check] returns. *)
Lemma generateManboVoice_cases
    (trim : string -> string) (api : string -> string -> VoiceResult)
    (config : PluginConfig) (text : string) (g : option Z) (now : Z)
    (m : Requests) :
  let limit := default (-1) (manboRateLimit config) in
  let key := rateLimitKey g in
  match trim <$> manboApiUrl config with
  | Some (String a u) =>
      generateManboVoice trim api config text g now m
      = (if (check key limit now m).1 then api (String a u) text
         else {| success := false; audioUrl := None;
                 error := Some "请求过于频繁，请稍后再试" |},
         (check key limit now m).2)
  | _ =>
      generateManboVoice trim api config text g now m
      = ({| success := false; audioUrl := None;
            error := Some "曼波API地址未配置" |}, m)
  end.
Proof.
  cbn zeta. unfold generateManboVoice, mbind, Limiter_bind, mret, Limiter_ret.
  destruct (trim <$> manboApiUrl config) as [[|a u]|]; try done.
  by destruct (check _ _ now m) as [[|] m'].
Qed.

Lemma generateManboVoice_other_key
    (trim : string -> string) (api : string -> string -> VoiceResult)
    (config : PluginConfig) (text : string) (g : option Z) (now : Z)
    (m : Requests) (k : string) :
  rateLimitKey g ≠ k ->
  (generateManboVoice trim api config text g now m).2 !! k = m !! k.
Proof.
  intros Hne.
  pose proof (generateManboVoice_cases trim api config text g now m) as Hc.
  cbn zeta in Hc.
  destruct (trim <$> manboApiUrl config) as [[|a u]|]; rewrite Hc; try done.
  cbn [snd]. by apply check_other_key.
Qed.

(** X9: a voice request of one chat leaves the budget of every chat with
    another key as it was: for group ids that differ and are not both
    falsy, after [generateManboVoice] for the first, [getRateLimitRemaining]
    and [generateManboVoice] for the second answer as before it. *)
Theorem voice_request_leaves_other_chats
    (trim : string -> string) (api : string -> string -> VoiceResult)
    (config : PluginConfig) (text text' : string) (g1 g2 : option Z)
    (now now' : Z) (m : Requests) :
  g1 ≠ g2 -> truthy g1 = true \/ truthy g2 = true ->
  let m' := (generateManboVoice trim api config text g1 now m).2 in
  (getRateLimitRemaining config g2 now' m').1
  = (getRateLimitRemaining config g2 now' m).1
  /\ (generateManboVoice trim api config text' g2 now' m').1
     = (generateManboVoice trim api config text' g2 now' m).1.
Proof.
  intros Hne Htruthy m'.
  assert (Hkeys : rateLimitKey g1 ≠ rateLimitKey g2).
  { intros [[H1 H2]|Heq]%rateLimitKey_eq_iff; [| done].
    destruct Htruthy; congruence. }
  assert (Hsame : m' !! rateLimitKey g2 = m !! rateLimitKey g2)
    by by apply generateManboVoice_other_key.
  split.
  - by apply getRemaining_depends_on_entry.
  - pose proof (generateManboVoice_cases trim api config text' g2 now' m')
      as Hc'.
    pose proof (generateManboVoice_cases trim api config text' g2 now' m)
      as Hc.
    cbn zeta in Hc, Hc'.
    destruct (trim <$> manboApiUrl config) as [[|a u]|];
      rewrite Hc, Hc'; try done. cbn [fst].
    by destruct (check_depends_on_entry (rateLimitKey g2)
                   (default (-1) (manboRateLimit config)) now' m' m Hsame)
      as [-> _].
Qed.

Lemma voice_request_leaves_other_chats_witness :
  let m' := (generateManboVoice (fun s => s)
               (fun _ _ => mkVoice true (Some "u") None)
               (mkConfig (Some "http://api") (Some 1)) "hi" (Some 1) 5 ∅).2 in
  (getRateLimitRemaining (mkConfig (Some "http://api") (Some 1))
     (Some 2) 6 m').1
  = (getRateLimitRemaining (mkConfig (Some "http://api") (Some 1))
       (Some 2) 6 ∅).1
  /\ (generateManboVoice (fun s => s)
        (fun _ _ => mkVoice true (Some "u") None)
        (mkConfig (Some "http://api") (Some 1)) "ho" (Some 2) 6 m').1
     = (generateManboVoice (fun s => s)
          (fun _ _ => mkVoice true (Some "u") None)
          (mkConfig (Some "http://api") (Some 1)) "ho" (Some 2) 6 ∅).1.
Proof.
  apply (voice_request_leaves_other_chats (fun s => s)
           (fun _ _ => mkVoice true (Some "u") None)
           (mkConfig (Some "http://api") (Some 1)) "hi" "ho"
           (Some 1) (Some 2) 5 6 ∅).
  - discriminate.
  - left. reflexivity.
Defined.

(** X10: after [resetRateLimit] for a group id, [getRateLimitRemaining] for
    it returns the configured limit (-1 when none is configured), and for a
    chat with another key it returns what it returned before. *)
Theorem resetRateLimit_round_trip
    (config : PluginConfig) (g g' : option Z) (now : Z) (m : Requests) :
  let m' := (resetRateLimit g m).2 in
  (getRateLimitRemaining config g now m').1
  = default (-1) (manboRateLimit config)
  /\ (g ≠ g' -> truthy g = true \/ truthy g' = true ->
      (getRateLimitRemaining config g' now m').1
      = (getRateLimitRemaining config g' now m).1).
Proof.
  intros m'. unfold m', resetRateLimit, getRateLimitRemaining, reset,
    requests_delete. cbn [snd]. split.
  - set (limit := default (-1) (manboRateLimit config)).
    destruct (decide (limit = -1)) as [->|Hu]; [done |].
    destruct (decide (limit = 0)) as [->|Hd]; [done |].
    apply getRemaining_absent; [done | done | apply lookup_delete_eq].
  - intros Hne Htruthy. apply getRemaining_depends_on_entry.
    apply lookup_delete_ne.
    intros [[H1 H2]|Heq]%rateLimitKey_eq_iff; [| done].
    destruct Htruthy; congruence.
Qed.

Lemma resetRateLimit_round_trip_witness :
  (getRateLimitRemaining (mkConfig None (Some 3)) None 9
     (resetRateLimit (Some 4) {[ "global" := mkEntry 2 0 ]}).2).1
  = (getRateLimitRemaining (mkConfig None (Some 3)) None 9
       {[ "global" := mkEntry 2 0 ]}).1.
Proof.
  apply (proj2 (resetRateLimit_round_trip (mkConfig None (Some 3))
                  (Some 4) None 9 {[ "global" := mkEntry 2 0 ]})).
  - discriminate.
  - left. reflexivity.
Defined.

(** X11: without a usable API URL (none configured, or one that is empty
    after trimming), [generateManboVoice] fails with the configuration
    error whatever the limit is, and the limiter is not consulted: no budget
    is used. *)
Theorem missing_url_uses_no_budget
    (trim : string -> string) (api : string -> string -> VoiceResult)
    (config : PluginConfig) (text : string) (g : option Z) (now : Z)
    (m : Requests) :
  (manboApiUrl config = None
   \/ exists raw, manboApiUrl config = Some raw /\ trim raw = "") ->
  generateManboVoice trim api config text g now m
  = ({| success := false; audioUrl := None;
        error := Some "曼波API地址未配置" |}, m).
Proof.
  intros Hurl.
  pose proof (generateManboVoice_cases trim api config text g now m) as Hc.
  cbn zeta in Hc.
  destruct Hurl as [Hnone|(raw & Hraw & Hblank)].
  - by rewrite Hnone in Hc.
  - rewrite Hraw in Hc. cbn [fmap option_fmap option_map] in Hc.
    by rewrite Hblank in Hc.
Qed.

Lemma missing_url_uses_no_budget_witness :
  generateManboVoice (fun _ => "") (fun _ _ => mkVoice true (Some "u") None)
    (mkConfig (Some "   ") (Some 0)) "hi" (Some 8) 3 ∅
  = ({| success := false; audioUrl := None;
        error := Some "曼波API地址未配置" |}, ∅).
Proof.
  apply (missing_url_uses_no_budget (fun _ => "")
           (fun _ _ => mkVoice true (Some "u") None)
           (mkConfig (Some "   ") (Some 0)) "hi" (Some 8) 3 ∅).
  right. exists "   ". split; reflexivity.
Defined.

(** ** What a voice request resolves to *)

Lemma orElse_nonempty (s : option string) (fallback : string) :
  fallback ≠ "" -> orElse s fallback ≠ "".
Proof. by destruct s as [[|a v]|]. Qed.

Lemma manboApiResult_shape (o : FetchOutcome) :
  if success (manboApiResult o)
  then (exists u, u ≠ "" /\ audioUrl (manboApiResult o) = Some u)
       /\ error (manboApiResult o) = None
  else audioUrl (manboApiResult o) = None
       /\ exists e, e ≠ "" /\ error (manboApiResult o) = Some e.
Proof.
  destruct o as [e|status statusText|result]; simpl.
  - split; [done |]. eexists. split; [| reflexivity]. done.
  - split; [done |]. eexists. split; [| reflexivity]. done.
  - destruct (code result =? 200); simpl.
    + destruct (url result) as [[|a u]|]; simpl.
      * split; [done |]. eexists. split; [| reflexivity].
        by apply orElse_nonempty.
      * split; [| done]. eexists. split; [| reflexivity]. done.
      * split; [done |]. eexists. split; [| reflexivity].
        by apply orElse_nonempty.
    + split; [done |]. eexists. split; [| reflexivity].
      by apply orElse_nonempty.
Qed.

Lemma generateVoice_shape
    (trim : string -> string) (fetchManbo : string -> string -> FetchOutcome)
    (config : PluginConfig) (text : string) (g : option Z) (now : Z)
    (m : Requests) :
  let r := (generateVoice trim fetchManbo config text g now m).1 in
  if success r
  then (exists u, u ≠ "" /\ audioUrl r = Some u) /\ error r = None
  else audioUrl r = None /\ exists e, e ≠ "" /\ error r = Some e.
Proof.
  cbn zeta. unfold generateVoice.
  pose proof (generateManboVoice_cases trim
                (fun apiUrl text => manboApiResult (fetchManbo apiUrl text))
                config text g now m) as Hc.
  cbn zeta in Hc.
  destruct (trim <$> manboApiUrl config) as [[|a u]|]; rewrite Hc; cbn [fst].
  - simpl. split; [done |]. eexists. split; [| reflexivity]. done.
  - destruct (check _ _ now m).1.
    + apply manboApiResult_shape.
    + simpl. split; [done |]. eexists. split; [| reflexivity]. done.
  - simpl. split; [done |]. eexists. split; [| reflexivity]. done.
Qed.

(** X12: whatever the network does, the value of [generateManboVoice] has
    one of two shapes: [success] with a non-empty [audioUrl] and no [error],
    or no [success], no [audioUrl] and a non-empty [error]. *)
Theorem voice_result_has_url_or_error
    (trim : string -> string) (fetchManbo : string -> string -> FetchOutcome)
    (config : PluginConfig) (text : string) (g : option Z) (now : Z)
    (m : Requests) :
  let r := (generateVoice trim fetchManbo config text g now m).1 in
  if success r
  then (exists u, u ≠ "" /\ audioUrl r = Some u) /\ error r = None
  else audioUrl r = None /\ exists e, e ≠ "" /\ error r = Some e.
Proof. apply generateVoice_shape. Qed.

(** X13: [generateManboVoice] succeeds exactly when an API URL is
    configured, the limiter accepts the request, and the API answers with
    [code] 200 and a non-empty [url]; the [audioUrl] is then that [url]. *)
Theorem voice_succeeds_iff_accepted_and_answered
    (trim : string -> string) (fetchManbo : string -> string -> FetchOutcome)
    (config : PluginConfig) (text : string) (g : option Z) (now : Z)
    (m : Requests) :
  let r := (generateVoice trim fetchManbo config text g now m).1 in
  let limit := default (-1) (manboRateLimit config) in
  success r = true
  <-> exists raw response,
        manboApiUrl config = Some raw /\ trim raw ≠ ""
        /\ (check (rateLimitKey g) limit now m).1 = true
        /\ fetchManbo (trim raw) text = FetchJson response
        /\ code response = 200
        /\ truthyString (url response) = true
        /\ audioUrl r = url response.
Proof.
  cbn zeta. unfold generateVoice.
  pose proof (generateManboVoice_cases trim
                (fun apiUrl text => manboApiResult (fetchManbo apiUrl text))
                config text g now m) as Hc.
  cbn zeta in Hc.
  destruct (manboApiUrl config) as [raw|] eqn:Hraw;
    cbn [fmap option_fmap option_map] in Hc.
  - destruct (trim raw) as [|a u] eqn:Htrim; rewrite Hc; cbn [fst].
    + split; [done |]. intros (raw' & resp & [= <-] & Hne & _). congruence.
    + destruct (check _ _ now m).1.
      * destruct (fetchManbo (String a u) text) as [e|st stt|resp] eqn:Hf;
          cbn [manboApiResult].
        -- split; [done |]. intros (raw' & resp' & [= <-] & _ & _ & Hf' & _).
           rewrite Htrim in Hf'. congruence.
        -- split; [done |]. intros (raw' & resp' & [= <-] & _ & _ & Hf' & _).
           rewrite Htrim in Hf'. congruence.
        -- destruct (Z.eqb_spec (code resp) 200) as [Hcode|Hcode];
             destruct (truthyString (url resp)) eqn:Hurl; cbn [andb success].
           ++ split; [| done]. intros _. exists raw, resp.
              rewrite Htrim. by repeat split.
           ++ split; [done |].
              intros (raw' & resp' & [= <-] & _ & _ & Hf' & _ & Hu & _).
              rewrite Htrim in Hf'. congruence.
           ++ split; [done |].
              intros (raw' & resp' & [= <-] & _ & _ & Hf' & Hcd & _).
              rewrite Htrim in Hf'. congruence.
           ++ split; [done |].
              intros (raw' & resp' & [= <-] & _ & _ & Hf' & Hcd & _).
              rewrite Htrim in Hf'. congruence.
      * split; [done |]. intros (raw' & resp & _ & _ & Hacc & _). done.
  - rewrite Hc. split; [done |]. intros (raw' & resp & [=] & _).
Qed.

(** * Properties of the message handler *)

Section HandlerProperties.

Variable trim : string -> string.
Variable fetchManbo : string -> string -> FetchOutcome.
Variable isGroupEnabled : string -> bool.
Variable config : PluginConfig.

Lemma chatDisabled_test (event : OB11Message) :
  match group_id event with
  | Some g =>
      String.eqb (message_type event) "group" && truthy (group_id event)
      && negb (isGroupEnabled (pretty g))
  | None => false
  end = true
  <-> chatDisabled isGroupEnabled event.
Proof.
  unfold chatDisabled. destruct (group_id event) as [g|]; cbn [truthy].
  - rewrite !andb_true_iff, !negb_true_iff, String.eqb_eq, Z.eqb_neq.
    split.
    + intros [[Ht Hg] He]. split; [done |]. by exists g.
    + intros [Ht (g' & [= <-] & Hg & He)]. done.
  - split; [done |]. by intros [_ (g & [=] & _)].
Qed.

(** The three ways through [handleMessage]. *)
Lemma handleMessage_cases (event : OB11Message) (now : Z) (m : Requests) :
  let text := commandText trim event in
  let gen := generateVoice trim fetchManbo config text (group_id event) now m in
  ((chatDisabled isGroupEnabled event \/ ~ isCommand event)
   /\ handleMessage trim fetchManbo isGroupEnabled config event now m
      = ({| reply := None; processed := false |}, m))
  \/ (~ chatDisabled isGroupEnabled event /\ isCommand event /\ text = ""
      /\ handleMessage trim fetchManbo isGroupEnabled config event now m
         = ({| reply := Some (TextMessage "请输入要说的内容，例如：/曼波 你好");
               processed := false |}, m))
  \/ (~ chatDisabled isGroupEnabled event /\ isCommand event /\ text ≠ ""
      /\ handleMessage trim fetchManbo isGroupEnabled config event now m
         = (if success gen.1 && truthyString (audioUrl gen.1) then
              {| reply := Some (RecordMessage (orElse (audioUrl gen.1) ""));
                 processed := true |}
            else
              {| reply := Some (TextMessage
                   ("生成失败: " +:+ orElse (error gen.1) "未知错误"));
                 processed := false |},
            gen.2)).
Proof.
  cbn zeta. unfold handleMessage, isCommand, commandText.
  pose proof (chatDisabled_test event) as Hdis.
  destruct (match group_id event with Some _ => _ | None => _ end).
  { left. split; [left; by apply Hdis | done]. }
  assert (Hen : ~ chatDisabled isGroupEnabled event).
  { intros Hd. apply Hdis in Hd. done. }
  destruct (String.prefix commandPrefix (orElse (raw_message event) ""))
    eqn:Hp; [| left; split; [right; done | done]].
  case_decide as Htext.
  - right. left. done.
  - right. right. repeat (split; [done |]).
    unfold mbind, Limiter_bind, mret, Limiter_ret.
    destruct (generateVoice _ _ _ _ _ now m) as [r m']. cbn [fst snd].
    by destruct (success r && truthyString (audioUrl r)).
Qed.

(** X15: [handleMessage] stays silent exactly when the chat is a group that
    is switched off or the message does not start with the command prefix;
    it then leaves the limiter as it was and counts nothing as processed.
    Every command in another chat gets a reply. *)
Theorem handler_is_silent_iff_not_addressed
    (event : OB11Message) (now : Z) (m : Requests) :
  let result :=
    handleMessage trim fetchManbo isGroupEnabled config event now m in
  (reply result.1 = None
   <-> chatDisabled isGroupEnabled event \/ ~ isCommand event)
  /\ (reply result.1 = None -> result.2 = m /\ processed result.1 = false).
Proof.
  cbn zeta.
  destruct (handleMessage_cases event now m)
    as [[Hwhy ->]|[(Hen & Hcmd & _ & ->)|(Hen & Hcmd & _ & ->)]];
    cbn [fst snd reply processed].
  - done.
  - split; [| done]. split; [done |]. intros [?|?]; done.
  - destruct (success _ && truthyString _); cbn [reply];
      (split; [| done]); (split; [done |]); intros [?|?]; done.
Qed.

(** X16: a command without text (nothing but what [trim] removes after the
    prefix) in a chat that is not switched off gets the usage hint, and the
    limiter is not consulted: it costs no budget. *)
Theorem blank_command_costs_no_budget
    (event : OB11Message) (now : Z) (m : Requests) :
  ~ chatDisabled isGroupEnabled event -> isCommand event ->
  commandText trim event = "" ->
  handleMessage trim fetchManbo isGroupEnabled config event now m
  = ({| reply := Some (TextMessage "请输入要说的内容，例如：/曼波 你好");
        processed := false |}, m).
Proof.
  intros Hen Hcmd Hblank.
  destruct (handleMessage_cases event now m)
    as [[[?|?] _]|[(_ & _ & _ & ->)|(_ & _ & Htext & _)]]; done.
Qed.

(** X17: for a command with text in a chat that is not switched off, the
    handler does to the limiter what [generateManboVoice] does, and its
    reply follows the result: on success one voice segment with the
    [audioUrl], counted as processed; otherwise the text of the [error]
    after the failure prefix, not counted.  The fallback text for a missing
    error is never sent. *)
Theorem handler_reply_follows_voice_result
    (event : OB11Message) (now : Z) (m : Requests) :
  ~ chatDisabled isGroupEnabled event -> isCommand event ->
  commandText trim event ≠ "" ->
  let gen := generateVoice trim fetchManbo config (commandText trim event)
               (group_id event) now m in
  let result :=
    handleMessage trim fetchManbo isGroupEnabled config event now m in
  result.2 = gen.2
  /\ (success gen.1 = true ->
      exists file, audioUrl gen.1 = Some file
        /\ result.1 = {| reply := Some (RecordMessage file);
                         processed := true |})
  /\ (success gen.1 = false ->
      exists e, error gen.1 = Some e
        /\ result.1 = {| reply := Some (TextMessage ("生成失败: " +:+ e));
                         processed := false |}).
Proof.
  intros Hen Hcmd Htext. cbn zeta.
  destruct (handleMessage_cases event now m)
    as [[[?|?] _]|[(_ & _ & ? & _)|(_ & _ & _ & ->)]]; try done.
  cbn [fst snd]. split; [done |].
  pose proof (generateVoice_shape trim fetchManbo config
                (commandText trim event) (group_id event) now m) as Hshape.
  cbn zeta in Hshape.
  destruct (success _); cbn [andb].
  - destruct Hshape as [(u & Hu & ->) _]. split; [| done]. intros _.
    exists u. split; [done |]. by destruct u.
  - destruct Hshape as [-> (e & He & ->)]. split; [done |]. intros _.
    exists e. split; [done |]. by destruct e.
Qed.

(** One invocation of the handler within the window that begins at [t0]:
    the count of the key grows by one with each voice reply, stays within
    the limit, and its window does not start before [t0]. *)
Lemma handleMessage_budget
    (k : string) (limit t0 : Z) (event : OB11Message) (now : Z)
    (m : Requests) :
  manboRateLimit config = Some limit -> 0 < limit ->
  t0 <= now < t0 + windowSize ->
  (forall e, m !! k = Some e -> t0 <= windowStart e /\ count e <= limit) ->
  let result :=
    handleMessage trim fetchManbo isGroupEnabled config event now m in
  (forall e, result.2 !! k = Some e ->
     t0 <= windowStart e /\ count e <= limit)
  /\ countedFor k m
     + (if decide (rateLimitKey (group_id event) = k)
        then if processed result.1 then 1 else 0 else 0)
     <= countedFor k result.2.
Proof.
  intros Hlimit Hpos Hnow Hinv. cbn zeta.
  assert (Hsilent : forall v : Z,
             v = 0 ->
             (forall e, m !! k = Some e ->
                t0 <= windowStart e /\ count e <= limit)
             /\ countedFor k m
                + (if decide (rateLimitKey (group_id event) = k)
                   then v else 0) <= countedFor k m).
  { intros v ->. split; [done |]. case_decide; lia. }
  destruct (handleMessage_cases event now m)
    as [[_ ->]|[(_ & _ & _ & ->)|(_ & _ & _ & ->)]];
    cbn [fst snd processed]; [by apply Hsilent | by apply Hsilent |].
  unfold generateVoice.
  pose proof (generateManboVoice_cases trim
                (fun apiUrl text => manboApiResult (fetchManbo apiUrl text))
                config (commandText trim event) (group_id event) now m)
    as Hc.
  cbn zeta in Hc.
  replace (default (-1) (manboRateLimit config)) with limit in Hc
    by (by rewrite Hlimit).
  destruct (trim <$> manboApiUrl config) as [[|a u]|]; rewrite Hc;
    cbn [fst snd success andb processed];
    [by apply Hsilent | | by apply Hsilent].
  set (key := rateLimitKey (group_id event)).
  match goal with
  | |- context [processed ?o] => set (voice := processed o)
  end.
  assert (Hvoice : voice = true -> (check key limit now m).1 = true).
  { unfold voice. by destruct (check key limit now m).1. }
  clearbody voice.
  destruct (decide (key = k)) as [<-|Hother].
  - assert (Hu : limit ≠ -1) by lia. assert (Hd : limit ≠ 0) by lia.
    destruct (check_paths key limit now m Hu Hd)
      as [Hk Hck|e Hk Hexp Hck|e Hk Hopen Hfull Hck|e Hk Hopen Hroom Hck];
      rewrite Hck in *; cbn [fst snd] in *.
    + split.
      * intros e. rewrite lookup_insert_eq. intros [= <-]. simpl. lia.
      * unfold countedFor. rewrite lookup_insert_eq, Hk. simpl.
        destruct voice; lia.
    + destruct (Hinv e Hk) as [Hstart _]. lia.
    + split; [done |]. destruct voice; [by specialize (Hvoice eq_refl) | lia].
    + destruct (Hinv e Hk) as [Hstart Hmax]. split.
      * intros e'. rewrite lookup_insert_eq. intros [= <-]. simpl. lia.
      * unfold countedFor. rewrite lookup_insert_eq, Hk. simpl.
        destruct voice; lia.
  - assert (Hsame : (check key limit now m).2 !! k = m !! k)
      by by apply check_other_key.
    split.
    + intros e. rewrite Hsame. apply Hinv.
    + unfold countedFor. rewrite Hsame. lia.
Qed.

Lemma handleAll_budget (k : string) (limit t0 : Z)
    (events : list (OB11Message * Z)) :
  manboRateLimit config = Some limit -> 0 < limit ->
  Forall (fun et => t0 <= et.2 < t0 + windowSize) events ->
  forall m : Requests,
    (forall e, m !! k = Some e -> t0 <= windowStart e /\ count e <= limit) ->
    countedFor k m
    + Z.of_nat (voiceReplies k events
                  (handleAll trim fetchManbo isGroupEnabled config
                     events m).1)
    <= limit.
Proof.
  intros Hlimit Hpos. induction 1 as [|[event now] events Hnow _ IH];
    intros m Hinv.
  - simpl. rewrite Z.add_0_r. unfold countedFor.
    destruct (m !! k) as [e|] eqn:Hk; [by apply Hinv | lia].
  - cbn [handleAll]. unfold mbind, Limiter_bind, mret, Limiter_ret.
    pose proof (handleMessage_budget k limit t0 event now m Hlimit Hpos
                  Hnow Hinv) as [Hinv' Hstep].
    cbn zeta in Hinv', Hstep.
    destruct (handleMessage _ _ _ _ event now m) as [o m1].
    cbn [fst snd] in Hinv', Hstep. specialize (IH m1 Hinv').
    destruct (handleAll _ _ _ _ events m1) as [os m2].
    cbn [fst voiceReplies] in *.
    case_decide; [destruct (processed o) |]; lia.
Qed.

(** X18: the limit holds from end to end.  With a positive configured
    limit, for any messages from any chats handled in order within 60000 ms
    starting at [t0], the chats counted under a key without entry get at
    most [limit] voice replies between them. *)
Theorem chat_gets_at_most_limit_voice_replies
    (k : string) (limit t0 : Z) (events : list (OB11Message * Z))
    (m : Requests) :
  manboRateLimit config = Some limit -> 0 < limit -> m !! k = None ->
  Forall (fun et => t0 <= et.2 < t0 + windowSize) events ->
  Z.of_nat (voiceReplies k events
              (handleAll trim fetchManbo isGroupEnabled config events m).1)
  <= limit.
Proof.
  intros Hlimit Hpos Hk Hin.
  assert (Hinv : forall e, m !! k = Some e ->
                   t0 <= windowStart e /\ count e <= limit).
  { intros e. by rewrite Hk. }
  pose proof (handleAll_budget k limit t0 events Hlimit Hpos Hin m Hinv)
    as Hb.
  unfold countedFor in Hb. rewrite Hk in Hb. lia.
Qed.

End HandlerProperties.

Lemma blank_command_costs_no_budget_witness :
  handleMessage (fun _ => "")
    (fun _ _ => FetchJson (mkResponse 200 None (Some "http://a/v.wav") None))
    (fun _ => true) (mkConfig (Some "http://api") (Some 1))
    (mkMessage (Some "/曼波   ") "private" None (Some 42)) 5 ∅
  = ({| reply := Some (TextMessage "请输入要说的内容，例如：/曼波 你好");
        processed := false |}, ∅).
Proof.
  apply (blank_command_costs_no_budget (fun _ => "")
           (fun _ _ =>
              FetchJson (mkResponse 200 None (Some "http://a/v.wav") None))
           (fun _ => true) (mkConfig (Some "http://api") (Some 1))
           (mkMessage (Some "/曼波   ") "private" None (Some 42)) 5 ∅).
  - intros [Htype _]. discriminate.
  - reflexivity.
  - reflexivity.
Defined.

Lemma handler_reply_follows_voice_result_witness :
  (handleMessage (fun s => s)
     (fun _ _ => FetchJson (mkResponse 200 None (Some "http://a/v.wav") None))
     (fun _ => true) (mkConfig (Some "http://api") (Some 1))
     (mkMessage (Some "/曼波 hi") "group" (Some 7) (Some 42)) 5 ∅).2
  = (generateVoice (fun s => s)
       (fun _ _ => FetchJson (mkResponse 200 None (Some "http://a/v.wav") None))
       (mkConfig (Some "http://api") (Some 1))
       (commandText (fun s => s)
          (mkMessage (Some "/曼波 hi") "group" (Some 7) (Some 42)))
       (Some 7) 5 ∅).2.
Proof.
  apply (handler_reply_follows_voice_result (fun s => s)
           (fun _ _ =>
              FetchJson (mkResponse 200 None (Some "http://a/v.wav") None))
           (fun _ => true) (mkConfig (Some "http://api") (Some 1))
           (mkMessage (Some "/曼波 hi") "group" (Some 7) (Some 42)) 5 ∅).
  - intros [_ (g & _ & _ & Hoff)]. discriminate.
  - reflexivity.
  - discriminate.
Defined.

Lemma chat_gets_at_most_limit_voice_replies_witness :
  Z.of_nat
    (voiceReplies "group:7"
       [ (mkMessage (Some "/曼波 a") "group" (Some 7) (Some 1), 100);
         (mkMessage (Some "/曼波 b") "group" (Some 7) (Some 2), 200);
         (mkMessage (Some "/曼波 c") "group" (Some 7) (Some 1), 300) ]
       (handleAll (fun s => s)
          (fun _ _ =>
             FetchJson (mkResponse 200 None (Some "http://a/v.wav") None))
          (fun _ => true) (mkConfig (Some "http://api") (Some 2))
          [ (mkMessage (Some "/曼波 a") "group" (Some 7) (Some 1), 100);
            (mkMessage (Some "/曼波 b") "group" (Some 7) (Some 2), 200);
            (mkMessage (Some "/曼波 c") "group" (Some 7) (Some 1), 300) ]
          ∅).1)
  <= 2.
Proof.
  apply (chat_gets_at_most_limit_voice_replies (fun s => s)
           (fun _ _ =>
              FetchJson (mkResponse 200 None (Some "http://a/v.wav") None))
           (fun _ => true) (mkConfig (Some "http://api") (Some 2))
           "group:7" 2 100
           [ (mkMessage (Some "/曼波 a") "group" (Some 7) (Some 1), 100);
             (mkMessage (Some "/曼波 b") "group" (Some 7) (Some 2), 200);
             (mkMessage (Some "/曼波 c") "group" (Some 7) (Some 1), 300) ]
           ∅).
  - reflexivity.
  - lia.
  - reflexivity.
  - repeat (constructor; [simpl; unfold windowSize; lia |]). constructor.
Defined.

(** ** Where a reply goes *)

(** X19: the parameters [sendReply] builds name the group exactly for a
    group message with a nonzero group id, and the user exactly for a
    private message with a nonzero user id, each as the decimal text of the
    id; they never name both. *)
Theorem sendReply_names_one_target_at_most
    (event : OB11Message) (message : MessageContent) :
  let p := sendReplyParams event message in
  (forall s, SendMsg.group_id p = Some s
             <-> message_type event = "group"
                 /\ exists g, group_id event = Some g /\ g ≠ 0
                              /\ s = pretty g)
  /\ (forall s, SendMsg.user_id p = Some s
                <-> message_type event = "private"
                    /\ exists u, user_id event = Some u /\ u ≠ 0
                                 /\ s = pretty u)
  /\ ~ (is_Some (SendMsg.group_id p) /\ is_Some (SendMsg.user_id p))
  /\ SendMsg.message p = message
  /\ SendMsg.message_type p = message_type event.
Proof.
  cbn zeta. unfold sendReplyParams. cbn [SendMsg.group_id SendMsg.user_id
    SendMsg.message SendMsg.message_type].
  assert (Htarget : forall (kind : string) (id : option Z) (s : string),
             match id with
             | Some g =>
                 if String.eqb (message_type event) kind && truthy id
                 then Some (pretty g) else None
             | None => None
             end = Some s
             <-> message_type event = kind
                 /\ exists g, id = Some g /\ g ≠ 0 /\ s = pretty g).
  { intros kind [g|] s; cbn [truthy].
    - destruct (String.eqb_spec (message_type event) kind) as [Hk|Hk];
        destruct (Z.eqb_spec g 0) as [Hg|Hg]; cbn [andb negb]; split;
        try discriminate; try (intros [? (g' & [= <-] & ? & ?)]; done).
      + intros [= <-]. split; [done |]. by exists g.
      + intros [_ (g' & [= <-] & _ & ->)]. done.
    - split; [discriminate |]. by intros [_ (g & [=] & _)]. }
  split; [intros s; apply Htarget |]. split; [intros s; apply Htarget |].
  split; [| done].
  intros [[s1 H1] [s2 H2]]. apply Htarget in H1 as [Hg _].
  apply Htarget in H2 as [Hp _]. congruence.
Qed.

(** ** The fast paths, from end to end *)

(** X14: when no limit is configured, or the limit is -1 or 0, handling any
    messages leaves the limiter as it was (nothing is ever stored); with the
    limit 0 no message gets a voice reply. *)
Theorem fast_paths_store_nothing
    (trim : string -> string) (fetchManbo : string -> string -> FetchOutcome)
    (isGroupEnabled : string -> bool) (config : PluginConfig)
    (events : list (OB11Message * Z)) (m : Requests) :
  let limit := default (-1) (manboRateLimit config) in
  limit = -1 \/ limit = 0 ->
  (handleAll trim fetchManbo isGroupEnabled config events m).2 = m
  /\ (limit = 0 ->
      Forall (fun o => processed o = false)
        (handleAll trim fetchManbo isGroupEnabled config events m).1).
Proof.
  intros limit Hfast.
  assert (Hone : forall event now,
            (handleMessage trim fetchManbo isGroupEnabled config
               event now m).2 = m
            /\ (limit = 0 ->
                processed (handleMessage trim fetchManbo isGroupEnabled
                             config event now m).1 = false)).
  { intros event now.
    destruct (handleMessage_cases trim fetchManbo isGroupEnabled config
                event now m)
      as [[_ ->]|[(_ & _ & _ & ->)|(_ & _ & _ & ->)]]; [done | done |].
    cbn [fst snd]. unfold generateVoice.
    pose proof (generateManboVoice_cases trim
                  (fun apiUrl text => manboApiResult (fetchManbo apiUrl text))
                  config (commandText trim event) (group_id event) now m)
      as Hc.
    cbn zeta in Hc. fold limit in Hc.
    destruct (trim <$> manboApiUrl config) as [[|a u]|]; rewrite Hc;
      [done | | done].
    cbn [fst snd]. destruct Hfast as [Hl|Hl]; rewrite Hl.
    - rewrite check_unlimited. split; [done | lia].
    - rewrite check_disabled. done. }
  induction events as [|[event now] events IH]; [done |].
  cbn [handleAll]. unfold mbind, Limiter_bind, mret, Limiter_ret.
  destruct (Hone event now) as [Hstate Hproc].
  destruct (handleMessage _ _ _ _ event now m) as [o m1].
  cbn [fst snd] in Hstate, Hproc. subst m1.
  destruct IH as [IHstate IHproc].
  destruct (handleAll _ _ _ _ events m) as [os m2].
  cbn [fst snd] in *. split; [done |].
  intros Hzero. constructor; auto.
Qed.

Lemma fast_paths_store_nothing_witness :
  (handleAll (fun s => s)
     (fun _ _ => FetchJson (mkResponse 200 None (Some "http://a/v.wav") None))
     (fun _ => true) (mkConfig (Some "http://api") None)
     [ (mkMessage (Some "/曼波 a") "group" (Some 7) (Some 1), 100);
       (mkMessage (Some "/曼波 b") "private" None (Some 2), 200) ]
     {[ "global" := mkEntry 1 0 ]}).2
  = {[ "global" := mkEntry 1 0 ]}.
Proof.
  apply (fast_paths_store_nothing (fun s => s)
           (fun _ _ =>
              FetchJson (mkResponse 200 None (Some "http://a/v.wav") None))
           (fun _ => true) (mkConfig (Some "http://api") None)
           [ (mkMessage (Some "/曼波 a") "group" (Some 7) (Some 1), 100);
             (mkMessage (Some "/曼波 b") "private" None (Some 2), 200) ]
           {[ "global" := mkEntry 1 0 ]}).
  left. reflexivity.
Defined.

(** ** Which keys have entries *)

#[local] Set Warnings "-clear-no-such-hyp".

Lemma dom_check key limit now (m : Requests) :
  limit ≠ -1 -> limit ≠ 0 ->
  dom (check key limit now m).2 = {[ key ]} ∪ dom m.
Proof.
  intros Hu Hd.
  destruct (check_paths key limit now m Hu Hd)
    as [Hk Hc|e Hk ? Hc|e Hk ? ? Hc|e Hk ? ? Hc]; rewrite Hc; cbn [snd];
    try apply dom_insert_L.
  assert (key ∈ dom m) by (apply elem_of_dom; eauto). set_solver.
Qed.

(** X20: entries are never evicted.  After a sequence of [check] and
    [getRemaining] calls, the keys with an entry are those that had one
    before together with those checked under a limit other than -1 and 0,
    whatever the times of the calls. *)
Theorem entries_are_never_evicted (cs : list (call * Z)) (m : Requests) :
  forallb (fun c => is_query c.1) cs = true ->
  dom (run cs m).2 = dom m ∪ countedKeys cs.
Proof.
  revert m. induction cs as [|[c now] cs IH]; intros m Hq.
  - simpl. set_solver.
  - cbn [forallb fst] in Hq. apply andb_prop in Hq as [Hc Hq].
    rewrite run_cons, IH by done.
    destruct c as [key limit|key limit| |]; try discriminate;
      cbn [perform countedKeys].
    + unfold mbind, Limiter_bind, mret, Limiter_ret.
      destruct (check key limit now m) as [b m1] eqn:Hcheck. cbn [snd].
      replace m1 with (check key limit now m).2 by by rewrite Hcheck.
      case_decide as Hfast.
      * destruct Hfast as [->| ->]; cbn [snd]; set_solver.
      * rewrite dom_check by tauto. set_solver.
    + unfold mbind, Limiter_bind, mret, Limiter_ret.
      pose proof (getRemaining_state key limit now m) as Hs.
      destruct (getRemaining key limit now m) as [n m1].
      cbn [snd] in *. by subst.
Qed.

Lemma entries_are_never_evicted_witness :
  dom (run [ (CallCheck "group:1" 2, 0); (CallCheck "group:2" (-1), 5);
             (CallGetRemaining "group:3" 2, 9);
             (CallCheck "global" 1, 10000000) ] ∅).2
  = dom (∅ : Requests)
    ∪ countedKeys [ (CallCheck "group:1" 2, 0); (CallCheck "group:2" (-1), 5);
                    (CallGetRemaining "group:3" 2, 9);
                    (CallCheck "global" 1, 10000000) ].
Proof.
  apply (entries_are_never_evicted
           [ (CallCheck "group:1" 2, 0); (CallCheck "group:2" (-1), 5);
             (CallGetRemaining "group:3" 2, 9);
             (CallCheck "global" 1, 10000000) ] ∅).
  reflexivity.
Defined.

(** ** The count under one limit *)

Lemma count_bounded_perform (limit : Z) (c : call) (now : Z) (m : Requests) :
  0 < limit -> has_limit limit c = true ->
  (forall k e, m !! k = Some e -> count e <= limit) ->
  forall k e, (perform c now m).2 !! k = Some e -> count e <= limit.
Proof.
  intros Hpos Hl Hinv.
  destruct c as [key l|key l|key|]; cbn [perform has_limit] in *;
    unfold mbind, Limiter_bind, mret, Limiter_ret.
  - apply Z.eqb_eq in Hl as ->.
    assert (Hu : limit ≠ -1) by lia. assert (Hd : limit ≠ 0) by lia.
    destruct (check_paths key limit now m Hu Hd)
      as [Hk Hc|e Hk ? Hc|e Hk ? ? Hc|e Hk ? ? Hc]; rewrite Hc; cbn [snd];
      try done; intros k' e'; rewrite lookup_insert; case_decide;
      try apply Hinv; intros [= <-]; simpl; lia.
  - pose proof (getRemaining_state key l now m) as Hs.
    destruct (getRemaining key l now m) as [n m1]. cbn [snd] in *. by subst.
  - intros k e. simpl. rewrite lookup_delete. case_decide; [done | apply Hinv].
  - intros k e. simpl. by rewrite lookup_empty.
Qed.

(** X21: when every [check] of a sequence of calls on a new limiter uses the
    same positive limit, every stored count is between 1 and that limit:
    the counter never runs past the limit, whatever the keys and times. *)
Theorem count_stays_within_fixed_limit
    (limit : Z) (cs : list (call * Z)) (k : string) (e : RateLimitEntry) :
  0 < limit ->
  forallb (fun c => has_limit limit c.1) cs = true ->
  (run cs ∅).2 !! k = Some e ->
  1 <= count e <= limit.
Proof.
  intros Hpos Hcs Hk. split; [by eapply counts_positive_reached |].
  assert (Hinv : forall (m : Requests),
             (forall k e, m !! k = Some e -> count e <= limit) ->
             forall k e, (run cs m).2 !! k = Some e -> count e <= limit).
  { clear Hk. induction cs as [|[c now] cs IH]; intros m Hm; [done |].
    cbn [forallb fst] in Hcs. apply andb_prop in Hcs as [Hc Hcs].
    rewrite run_cons. apply IH; [done |].
    by apply count_bounded_perform. }
  eapply Hinv; [| done]. intros k' e'. by rewrite lookup_empty.
Qed.

Lemma count_stays_within_fixed_limit_witness :
  1 <= count (mkEntry 2 0) <= 2.
Proof.
  apply (count_stays_within_fixed_limit 2
           [ (CallCheck "global" 2, 0); (CallCheck "global" 2, 1);
             (CallCheck "global" 2, 2); (CallGetRemaining "global" 9, 3) ]
           "global" (mkEntry 2 0)); [lia | reflexivity | reflexivity].
Defined.
